(** * Consistent-hash ring (package [consistent], file consistent.go)

    A shallow embedding of the ring and of the part of the Go runtime and
    of package [sort] it relies on, followed by the properties of the ring.

    Conventions of the embedding.
    - Go [int] is the 64-bit two's-complement integer of the usual
      platforms; it is a [Z], and the arithmetic the code performs on
      positions goes through [int_add] and [int_sub], which wrap.
    - A value of type [uint32] is a [Z] in [[0, 2^32)].
    - Slice indices and lengths are [nat]; an access out of range is the
      run-time panic [IndexOutOfRange].
    - [m.hashMap] is a [gmap Z string]; reading an absent key yields the
      zero value, the empty string.
    - The mutex only serialises callers; one call at a time is modelled, a
      method that mutates the receiver returns the new ring.
    - consistent.go holds two revisions of the package.  The shared part
      (type, [New], [IsEmpty], [Hash], [Add], [Remove]) is textually the same
      in both.  What only the first revision has, or has differently, lives
      in [Module Rev1]; the second revision is at top level. *)

From Stdlib Require Import ZArith Lia.
From stdpp Require Import gmap strings list sorting.

Local Open Scope Z_scope.

(** ** Run-time panics and the result of a call *)

Inductive panic : Set :=
  | IndexOutOfRange
  | MakeSliceLenOutOfRange.

Inductive result (A : Type) : Type :=
  | Ok (a : A)
  | Panic (e : panic).

Arguments Ok {A} a.
Arguments Panic {A} e.

Definition rbind {A B : Type} (r : result A) (k : A → result B) : result B :=
  match r with
  | Ok a => k a
  | Panic e => Panic e
  end.

Notation "'do' x <- r ; k" := (rbind r (λ x, k))
  (at level 10, x name, r at level 100, k at level 200,
   format "'[v' 'do'  x  <-  r ;  '/' k ']'").

(** ** Machine integers *)

Definition int_wrap (z : Z) : Z := (z + 2 ^ 63) mod 2 ^ 64 - 2 ^ 63.
Definition int_add (a b : Z) : Z := int_wrap (a + b).
Definition int_sub (a b : Z) : Z := int_wrap (a - b).

Definition is_uint32 (z : Z) : Prop := 0 ≤ z < 2 ^ 32.

(** ** Slices *)

(** [s[i]] for a slice of ints. *)
Definition slice_get (s : list Z) (i : nat) : result Z :=
  match s !! i with
  | Some x => Ok x
  | None => Panic IndexOutOfRange
  end.

(** [s[i] = v], the index being an [int]. *)
Definition slice_set {A : Type} (s : list A) (i : Z) (v : A) : result (list A) :=
  if bool_decide (0 ≤ i < Z.of_nat (length s))
  then Ok (<[Z.to_nat i := v]> s)
  else Panic IndexOutOfRange.

(** [make([]string, n)]: [n] empty strings; a negative length panics.
    The limit that the allocator puts on large lengths is left out. *)
Definition make_strings (n : Z) : result (list string) :=
  if bool_decide (n < 0) then Panic MakeSliceLenOutOfRange
  else Ok (replicate (Z.to_nat n) EmptyString).

(** [for i := lo; i <= hi; i++ { body }] runs [body] for the
    [Z.to_nat (hi + 1 - lo)] values of [i] from [lo] on, and
    [for i := lo; i < hi; i++] for [Z.to_nat (hi - lo)] of them; the body
    neither assigns [i] nor leaves the loop early, but it may panic. *)
Fixpoint for_range {S : Type} (n : nat) (i : Z)
    (body : Z → S → result S) (s : S) : result S :=
  match n with
  | O => Ok s
  | S n' => do s' <- body i s; for_range n' (int_add i 1) body s'
  end.

(** ** Package sort *)

(** The loop of [sort.Search]: [for i < j { h := int(uint(i+j) >> 1);
    if !f(h) { i = h + 1 } else { j = h } }; return i].  Every turn
    shrinks [j - i], so [j - i] turns of fuel are never used up. *)
Fixpoint search_loop (fuel : nat) (f : nat → bool) (i j : nat) : nat :=
  match fuel with
  | O => i
  | S fuel' =>
      if (i <? j)%nat then
        let h := ((i + j) / 2)%nat in
        if negb (f h) then search_loop fuel' f (h + 1)%nat j
        else search_loop fuel' f i h
      else i
  end.

Definition Search (n : nat) (f : nat → bool) : nat := search_loop n f 0%nat n.

(** [sort.SearchInts(a, x) = sort.Search(len(a), func(i) { return a[i] >= x })]. *)
Definition SearchInts (a : list Z) (x : Z) : nat :=
  Search (length a) (λ i, bool_decide (x ≤ a !!! i)).

(** [sort.Ints]: the ascending rearrangement of the slice.  Integers that
    compare equal are equal, so every sorting algorithm computes the same
    slice; merge sort stands for the library's. *)
Definition Ints (a : list Z) : list Z := merge_sort Z.le a.

(** [sort.Sort(sort.Reverse(sort.IntSlice(a)))]: the descending one. *)
Definition IntsReverse (a : list Z) : list Z := merge_sort (flip Z.le) a.

(** ** Package hash/crc32: [crc32.ChecksumIEEE] *)

Definition crc32_poly : Z := 0xEDB88320.

Definition crc32_bit (c : Z) : Z :=
  if Z.testbit c 0 then Z.lxor (Z.shiftr c 1) crc32_poly else Z.shiftr c 1.

Definition crc32_byte (c : Z) (b : Byte.byte) : Z :=
  Nat.iter 8 crc32_bit (Z.lxor c (Z.of_N (Byte.to_N b))).

Definition ChecksumIEEE (data : list Byte.byte) : Z :=
  Z.lxor (fold_left crc32_byte data 0xFFFFFFFF) 0xFFFFFFFF.

(** ** The ring *)

(** [type Hash func(data []byte) uint32]; the name [Hash] goes to the
    method below. *)
Definition HashFunc : Type := list Byte.byte → Z.

Record Consistent : Type := mkConsistent {
  hash : HashFunc;
  keys : list Z;
  hashMap : gmap Z string
}.

(** [New(fn)] (lines 210-221); [None] is the nil function. *)
Definition New (fn : option HashFunc) : Consistent :=
  {| hash := match fn with Some f => f | None => ChecksumIEEE end;
     keys := [];
     hashMap := ∅ |}.

(** [IsEmpty] (lines 224-228). *)
Definition IsEmpty (m : Consistent) : bool :=
  bool_decide (length (keys m) = 0%nat).

(** [Hash] (lines 231-233), [int(m.hash([]byte(key)))]: a [uint32]
    converts to [int] unchanged. *)
Definition Hash (m : Consistent) (key : string) : Z :=
  hash m (String.list_byte_of_string key).

(** [m.hashMap[p]] *)
Definition owner (m : Consistent) (p : Z) : string :=
  default EmptyString (hashMap m !! p).

(** [Add] (lines 236-250), as the ring it leaves and the position it
    returns. *)
Definition Add (m : Consistent) (key : string) : Consistent * Z :=
  let h := Hash m key in
  let keys' :=
    match hashMap m !! h with
    | None => Ints (keys m ++ [h])
    | Some _ => keys m
    end in
  ({| hash := hash m; keys := keys'; hashMap := <[h := key]> (hashMap m) |}, h).

(** [Remove] (lines 253-268), as the ring it leaves.  The test
    [i < len(m.keys) && m.keys[i] == hash] is the match on [keys m !! i];
    [append(m.keys[:i], m.keys[i+1:]...)] drops the element at [i]. *)
Definition Remove (m : Consistent) (key : string) : Consistent :=
  let h := Hash m key in
  let i := SearchInts (keys m) h in
  let keys' :=
    match keys m !! i with
    | Some k => if bool_decide (k = h)
                then take i (keys m) ++ drop (S i) (keys m)
                else keys m
    | None => keys m
    end in
  {| hash := hash m; keys := Ints keys'; hashMap := delete h (hashMap m) |}.

(** *** First revision (lines 1-188) *)

Module Rev1.

(** [prev] of the first revision (lines 160-175): past the end,
    [i -= 1].  On an empty slice that is index -1; the index 0 that
    subtraction on [nat] gives is out of range there as well. *)
Definition prev (m : Consistent) (h : Z) : result Z :=
  let rev := IntsReverse (keys m) in
  let i := Search (length rev) (λ i, bool_decide (rev !!! i ≤ h)) in
  let i := if bool_decide (i = length rev) then (i - 1)%nat else i in
  slice_get rev i.

(** [Get] of the first revision (lines 83-94). *)
Definition Get (m : Consistent) (key : string) : result string :=
  if IsEmpty m then Ok EmptyString
  else
    let h := Hash m key in
    do index <- prev m h;
    Ok (owner m index).

(** [GetFromHash] (lines 98-108), which only the first revision has. *)
Definition GetFromHash (m : Consistent) (h : Z) : result string :=
  if IsEmpty m then Ok EmptyString
  else
    do index <- prev m h;
    Ok (owner m index).

(** [next] of the first revision (lines 177-188), the same search as in
    the second. *)
Definition next (m : Consistent) (h : Z) : result Z :=
  let i := Search (length (keys m)) (λ i, bool_decide (h < keys m !!! i)) in
  let i := if bool_decide (i = length (keys m)) then 0%nat else i in
  slice_get (keys m) i.

(** One turn of the loop of [GetReplicas], on the pair of [index] and
    [locations]. *)
Definition GetReplicas_body (m : Consistent) (replicaCurs : Z)
    (s : Z * list string) : result (Z * list string) :=
  do locations <- slice_set s.2 replicaCurs (owner m s.1);
  do index <- next m s.1;
  Ok (index, locations).

(** [GetReplicas] (lines 112-132):
    [for replicaCurs := 0; replicaCurs < numReplicas; replicaCurs++]. *)
Definition GetReplicas (m : Consistent) (key : string) (numReplicas : Z)
    : result (list string) :=
  if IsEmpty m then Ok []
  else
    let h := Hash m key in
    do index <- prev m h;
    do locations <- make_strings numReplicas;
    do s <- for_range (Z.to_nat (numReplicas - 0)) 0 (GetReplicas_body m)
              (index, locations);
    Ok s.2.

(** [Next] of the first revision (lines 135-146). *)
Definition Next (m : Consistent) (key : string) : result string :=
  if IsEmpty m then Ok EmptyString
  else
    let h := Hash m key in
    do candidate <- next m h;
    Ok (owner m candidate).

(** [Range] of the first revision (lines 149-158). *)
Definition Range (m : Consistent) (host : string) : result (Z * Z) :=
  if IsEmpty m then Ok (0, 0)
  else
    let from := Hash m host in
    do q <- next m from;
    let to := int_sub q 1 in
    Ok (from, to).

End Rev1.

(** *** Second revision (lines 189-401) *)

(** [Has] (lines 271-279). *)
Definition Has (m : Consistent) (key : string) : bool :=
  match hashMap m !! Hash m key with
  | Some _ => true
  | None => false
  end.

(** [prev] (lines 378-390): a search in a descending copy of the
    positions; past the end, [i = 0]. *)
Definition prev (m : Consistent) (h : Z) : result Z :=
  let rev := IntsReverse (keys m) in
  let i := Search (length rev) (λ i, bool_decide (rev !!! i ≤ h)) in
  let i := if bool_decide (i = length rev) then 0%nat else i in
  slice_get rev i.

(** [next] (lines 393-401).  The search calls its closure below
    [len(m.keys)] only ([Search_ext]), where [m.keys[i]] is in range. *)
Definition next (m : Consistent) (h : Z) : result Z :=
  let i := Search (length (keys m)) (λ i, bool_decide (h < keys m !!! i)) in
  let i := if bool_decide (i = length (keys m)) then 0%nat else i in
  slice_get (keys m) i.

(** [Next] (lines 310-322). *)
Definition Next (m : Consistent) (key : string) : result string :=
  if IsEmpty m then Ok EmptyString
  else
    let h := Hash m key in
    do index <- next m h;
    Ok (owner m index).

(** [Get] (lines 282-284). *)
Definition Get (m : Consistent) (key : string) : result string :=
  Next m key.

(** One turn of the loop of [NextN], on the pair of [hash] and [locations]. *)
Definition NextN_body (m : Consistent) (i : Z) (s : Z * list string)
    : result (Z * list string) :=
  do h <- next m s.1;
  do locations <- slice_set s.2 i (owner m h);
  Ok (h, locations).

(** [NextN] (lines 325-342): [for i := 0; i <= count; i++]. *)
Definition NextN (m : Consistent) (key : string) (count : Z)
    : result (list string) :=
  if IsEmpty m then Ok []
  else
    do locations <- make_strings count;
    let h := Hash m key in
    do s <- for_range (Z.to_nat (count + 1 - 0)) 0 (NextN_body m) (h, locations);
    Ok s.2.

(** One turn of the loop of [PrevN], on the pair of [index] and [locations]. *)
Definition PrevN_body (m : Consistent) (i : Z) (s : Z * list string)
    : result (Z * list string) :=
  do locations <- slice_set s.2 i (owner m s.1);
  do index <- prev m (int_sub s.1 1);
  Ok (index, locations).

(** [PrevN] (lines 345-363): [for i := 0; i < count; i++]. *)
Definition PrevN (m : Consistent) (key : string) (count : Z)
    : result (list string) :=
  if IsEmpty m then Ok []
  else
    do locations <- make_strings count;
    let h := Hash m key in
    do index <- prev m h;
    do s <- for_range (Z.to_nat (count - 0)) 0 (PrevN_body m) (index, locations);
    Ok s.2.

(** [Range] (lines 366-375). *)
Definition Range (m : Consistent) (host : string) : result (Z * Z) :=
  if IsEmpty m then Ok (0, 0)
  else
    let to := Hash m host in
    do p <- prev m (int_sub to 1);
    let from := int_add p 1 in
    Ok (from, to).

(** ** Rings the package can build *)

Inductive op : Set :=
  | OpAdd (key : string)
  | OpRemove (key : string).

Definition apply_op (m : Consistent) (o : op) : Consistent :=
  match o with
  | OpAdd key => (Add m key).1
  | OpRemove key => Remove m key
  end.

Definition run (ops : list op) (m : Consistent) : Consistent :=
  fold_left apply_op ops m.

(** A hash function is a function into [uint32]. *)
Definition hash_ok (fn : option HashFunc) : Prop :=
  match fn with
  | Some f => ∀ data, is_uint32 (f data)
  | None => True
  end.

Inductive reachable : Consistent → Prop :=
  | reach_New fn : hash_ok fn → reachable (New fn)
  | reach_Add m key : reachable m → reachable (Add m key).1
  | reach_Remove m key : reachable m → reachable (Remove m key).

(** A hash function for examples: the first byte of the key. *)
Definition first_byte : HashFunc :=
  λ data, match data with
          | [] => 0
          | b :: _ => Z.of_N (Byte.to_N b)
          end.

Definition ring_of (members : list string) : Consistent :=
  run (OpAdd <$> members) (New (Some first_byte)).

(** ** Places on the ring, in the words of the specification *)

(** [p] is the smallest occupied position strictly greater than [h] or,
    when none is greater, the smallest occupied position overall. *)
Definition successor (ks : list Z) (h p : Z) : Prop :=
  p ∈ ks ∧
  ((h < p ∧ Forall (λ k, h < k → p ≤ k) ks) ∨
   (Forall (λ k, k ≤ h) ks ∧ Forall (λ k, p ≤ k) ks)).

(** [p] is the largest occupied position less than or equal to [h] or,
    when none is at or below [h], the largest occupied position overall. *)
Definition predecessor (ks : list Z) (h p : Z) : Prop :=
  p ∈ ks ∧
  ((p ≤ h ∧ Forall (λ k, k ≤ h → k ≤ p) ks) ∨
   (Forall (λ k, h < k) ks ∧ Forall (λ k, k ≤ p) ks)).

(** [p] is the largest occupied position less than or equal to [h] or,
    when none is at or below [h], the smallest occupied position overall. *)
Definition predecessor_or_least (ks : list Z) (h p : Z) : Prop :=
  p ∈ ks ∧
  ((p ≤ h ∧ Forall (λ k, k ≤ h → k ≤ p) ks) ∨
   (Forall (λ k, h < k) ks ∧ Forall (λ k, p ≤ k) ks)).

#[global] Instance successor_dec ks h p : Decision (successor ks h p).
Proof. unfold successor. apply _. Defined.

#[global] Instance predecessor_dec ks h p : Decision (predecessor ks h p).
Proof. unfold predecessor. apply _. Defined.

#[global] Instance predecessor_or_least_dec ks h p :
  Decision (predecessor_or_least ks h p).
Proof. unfold predecessor_or_least. apply _. Defined.

(** The position at index [j] counted around the circle of the positions
    [ks]: index [length ks] is index 0 again, index -1 the last one. *)
Definition around (ks : list Z) (j : Z) : Z :=
  ks !!! Z.to_nat (j mod Z.of_nat (length ks)).

(** ** What holds of every ring the package builds *)

Record ring_inv (m : Consistent) : Prop := mk_ring_inv {
  inv_sorted : StronglySorted Z.lt (keys m);
  inv_dom : ∀ p, p ∈ keys m ↔ is_Some (hashMap m !! p);
  inv_owner : ∀ p key, hashMap m !! p = Some key → Hash m key = p
}.

(** * Properties *)

(** ** Machine integers *)

Lemma int_wrap_id (z : Z) : - 2 ^ 63 ≤ z < 2 ^ 63 → int_wrap z = z.
Proof. intros Hz. unfold int_wrap. rewrite Z.mod_small; lia. Qed.

Lemma is_uint32_lxor (a b : Z) :
  is_uint32 a → is_uint32 b → is_uint32 (Z.lxor a b).
Proof.
  unfold is_uint32. intros [Ha Ha'] [Hb Hb'].
  assert (Hnn : 0 ≤ Z.lxor a b) by (by apply Z.lxor_nonneg).
  split; [done|].
  destruct (decide (Z.lxor a b = 0)) as [->|Hne]; [lia|].
  apply Z.log2_lt_pow2; [lia|].
  pose proof (Z.log2_lxor a b Ha Hb) as Hlog.
  assert (Z.log2 a < 32).
  { destruct (decide (a = 0)) as [->|]; [done|]. apply Z.log2_lt_pow2; lia. }
  assert (Z.log2 b < 32).
  { destruct (decide (b = 0)) as [->|]; [done|]. apply Z.log2_lt_pow2; lia. }
  lia.
Qed.

Lemma is_uint32_shiftr1 (a : Z) : is_uint32 a → is_uint32 (Z.shiftr a 1).
Proof.
  unfold is_uint32. intros [Ha Ha']. rewrite Z.shiftr_div_pow2 by lia.
  change (2 ^ 1) with 2. split.
  - apply Z.div_pos; lia.
  - apply Z.div_lt_upper_bound; lia.
Qed.

Lemma is_uint32_byte (b : Byte.byte) : is_uint32 (Z.of_N (Byte.to_N b)).
Proof. pose proof (Byte.to_N_bounded b). unfold is_uint32. lia. Qed.

Lemma ChecksumIEEE_uint32 (data : list Byte.byte) : is_uint32 (ChecksumIEEE data).
Proof.
  assert (Hbit : ∀ c, is_uint32 c → is_uint32 (crc32_bit c)).
  { intros c Hc. unfold crc32_bit. destruct (Z.testbit c 0).
    - apply is_uint32_lxor; [by apply is_uint32_shiftr1|].
      unfold is_uint32, crc32_poly. lia.
    - by apply is_uint32_shiftr1. }
  assert (Hbyte : ∀ c b, is_uint32 c → is_uint32 (crc32_byte c b)).
  { intros c b Hc. unfold crc32_byte.
    assert (Hx : is_uint32 (Z.lxor c (Z.of_N (Byte.to_N b))))
      by auto using is_uint32_lxor, is_uint32_byte.
    simpl. auto 10. }
  assert (Hfold : ∀ c, is_uint32 c → is_uint32 (fold_left crc32_byte data c)).
  { induction data as [|b data IH]; simpl; auto. }
  unfold ChecksumIEEE. apply is_uint32_lxor.
  - apply Hfold. unfold is_uint32. lia.
  - unfold is_uint32. lia.
Qed.

Lemma first_byte_uint32 (data : list Byte.byte) : is_uint32 (first_byte data).
Proof.
  destruct data as [|b ?]; simpl; [unfold is_uint32; lia|apply is_uint32_byte].
Qed.

(** ** Binary search *)

Section search.
Local Open Scope nat_scope.
Context (f : nat → bool).

Lemma half_between (i j : nat) : i < j → i ≤ (i + j) / 2 < j.
Proof.
  intros Hij. pose proof (Nat.div_mod_eq (i + j) 2).
  pose proof (Nat.mod_upper_bound (i + j) 2). lia.
Qed.

(** The loop stays within the bounds it starts from, whatever [f]. *)
Lemma search_loop_range (fuel i j : nat) :
  i ≤ j → i ≤ search_loop fuel f i j ≤ j.
Proof.
  revert i j.
  induction fuel as [|fuel IH]; intros i j Hij; cbn [search_loop]; [lia|].
  destruct (Nat.ltb_spec i j) as [Hlt|]; [|lia].
  pose proof (half_between i j Hlt) as Hh.
  destruct (f _); cbn [negb].
  - specialize (IH i ((i + j) / 2)). lia.
  - specialize (IH ((i + j) / 2 + 1) j). lia.
Qed.

(** Fuel beyond [j - i] changes nothing. *)
Lemma search_loop_fuel (fuel fuel' i j : nat) :
  j - i ≤ fuel → j - i ≤ fuel' →
  search_loop fuel f i j = search_loop fuel' f i j.
Proof.
  revert fuel' i j.
  induction fuel as [|fuel IH]; intros fuel' i j Hfuel Hfuel'.
  - destruct fuel' as [|fuel']; cbn [search_loop]; [done|].
    destruct (Nat.ltb_spec i j); [lia|done].
  - cbn [search_loop]. destruct (Nat.ltb_spec i j) as [Hlt|Hge].
    + destruct fuel' as [|fuel']; [lia|]. cbn [search_loop].
      destruct (Nat.ltb_spec i j); [|lia].
      pose proof (half_between i j Hlt) as Hh.
      destruct (f _); cbn [negb]; apply IH; lia.
    + destruct fuel' as [|fuel']; cbn [search_loop]; [done|].
      destruct (Nat.ltb_spec i j); [lia|done].
Qed.

Lemma Search_le (n : nat) : Search n f ≤ n.
Proof. unfold Search. pose proof (search_loop_range n 0 n). lia. Qed.

(** With enough fuel, and [f] false then true over [[0, n)], the loop
    stops at the border. *)
Lemma search_loop_border (n fuel i j : nat) :
  (∀ a b, a ≤ b → b < n → f a = true → f b = true) →
  i ≤ j ≤ n → j - i ≤ fuel →
  (∀ k, k < i → f k = false) →
  (∀ k, j ≤ k < n → f k = true) →
  (∀ k, k < search_loop fuel f i j → f k = false) ∧
  (∀ k, search_loop fuel f i j ≤ k < n → f k = true).
Proof.
  intros Hmono. revert i j.
  induction fuel as [|fuel IH]; intros i j Hij Hfuel Hlo Hhi;
    cbn [search_loop].
  { split; [done|]. intros k Hk. apply Hhi. lia. }
  destruct (Nat.ltb_spec i j) as [Hlt|Hge].
  2:{ split; [done|]. intros k Hk. apply Hhi. lia. }
  pose proof (half_between i j Hlt) as Hh.
  destruct (f ((i + j) / 2)) eqn:Hf; cbn [negb].
  - apply IH; [lia|lia|done|].
    intros k Hk. apply (Hmono ((i + j) / 2)); [lia|lia|done].
  - apply IH; [lia|lia| |done].
    intros k Hk. destruct (f k) eqn:Hfk; [|done].
    rewrite <-Hf. symmetry. apply (Hmono k); [lia|lia|done].
Qed.

Lemma Search_border (n : nat) :
  (∀ a b, a ≤ b → b < n → f a = true → f b = true) →
  (∀ k, k < Search n f → f k = false) ∧
  (∀ k, Search n f ≤ k < n → f k = true).
Proof.
  intros Hmono. unfold Search.
  apply search_loop_border; [done|lia|lia|lia|lia].
Qed.
End search.

(** The search looks at [f] below [n] only. *)
Lemma Search_ext (n : nat) (f g : nat → bool) :
  (∀ k, (k < n)%nat → f k = g k) → Search n f = Search n g.
Proof.
  intros Hfg. unfold Search.
  assert (∀ fuel i j, (j ≤ n)%nat →
            search_loop fuel f i j = search_loop fuel g i j) as Hloop.
  { induction fuel as [|fuel IH]; intros i j Hj; cbn [search_loop]; [done|].
    destruct (Nat.ltb_spec i j) as [Hlt|]; [|done].
    pose proof (half_between i j Hlt) as Hh.
    rewrite Hfg by lia. destruct (g _); cbn [negb]; apply IH; lia. }
  by apply Hloop.
Qed.

(** ** Sorting *)

Lemma StronglySorted_lookup {A : Type} (R : relation A) (l : list A)
    (i j : nat) (x y : A) :
  StronglySorted R l → (i < j)%nat → l !! i = Some x → l !! j = Some y → R x y.
Proof.
  intros Hl. revert i j. induction Hl as [|a l Hl IH Ha]; intros i j Hij Hi Hj.
  { by rewrite lookup_nil in Hi. }
  destruct j as [|j]; [lia|]. simpl in Hj. destruct i as [|i]; simpl in Hi.
  - injection Hi as ->. rewrite Forall_forall in Ha.
    apply Ha. by eapply list_elem_of_lookup_2.
  - apply (IH i j); [lia|done..].
Qed.

Lemma Ints_Permutation (a : list Z) : Ints a ≡ₚ a.
Proof. apply merge_sort_Permutation. Qed.

Lemma Ints_sorted (a : list Z) : StronglySorted Z.le (Ints a).
Proof. apply StronglySorted_merge_sort; apply _. Qed.

Lemma elem_of_Ints (a : list Z) (x : Z) : x ∈ Ints a ↔ x ∈ a.
Proof. by rewrite Ints_Permutation. Qed.

Lemma IntsReverse_Permutation (a : list Z) : IntsReverse a ≡ₚ a.
Proof. apply merge_sort_Permutation. Qed.

Lemma IntsReverse_sorted (a : list Z) : StronglySorted (flip Z.le) (IntsReverse a).
Proof.
  apply StronglySorted_merge_sort; [apply _|].
  intros x y. unfold flip. lia.
Qed.

Lemma elem_of_IntsReverse (a : list Z) (x : Z) : x ∈ IntsReverse a ↔ x ∈ a.
Proof. by rewrite IntsReverse_Permutation. Qed.

Lemma length_IntsReverse (a : list Z) : length (IntsReverse a) = length a.
Proof. by rewrite IntsReverse_Permutation. Qed.

Lemma StronglySorted_lt_le (l : list Z) :
  StronglySorted Z.lt l → StronglySorted Z.le l.
Proof.
  induction 1 as [|x l ? IH Hx]; constructor; [done|].
  eapply Forall_impl; [done|]. simpl. lia.
Qed.

Lemma StronglySorted_lt_NoDup (l : list Z) : StronglySorted Z.lt l → NoDup l.
Proof.
  induction 1 as [|x l ? IH Hx]; constructor; [|done].
  rewrite Forall_forall in Hx. intros Hin. specialize (Hx x Hin). lia.
Qed.

Lemma StronglySorted_le_NoDup_lt (l : list Z) :
  StronglySorted Z.le l → NoDup l → StronglySorted Z.lt l.
Proof.
  induction 1 as [|x l ? IH Hx]; intros Hnd; [constructor|].
  apply NoDup_cons in Hnd as [Hx' Hnd]. constructor; [auto|].
  rewrite Forall_forall in *. intros y Hy. specialize (Hx y Hy).
  destruct (decide (x = y)) as [->|]; [done|lia].
Qed.

(** Sorting a sorted slice leaves it as it is. *)
Lemma Ints_of_sorted (a : list Z) : StronglySorted Z.lt a → Ints a = a.
Proof.
  intros Ha. apply (StronglySorted_unique Z.le).
  - apply Ints_sorted.
  - by apply StronglySorted_lt_le.
  - apply Ints_Permutation.
Qed.

(** A search over a sorted slice for the first element with a property
    that, once true, stays true along the order. *)
Lemma Search_sorted (R : relation Z) (P : Z → bool) (l : list Z) :
  StronglySorted R l →
  (∀ x y, R x y → P x = true → P y = true) →
  let r := Search (length l) (λ i, P (l !!! i)) in
  (r ≤ length l)%nat ∧
  (∀ i x, l !! i = Some x → (i < r)%nat → P x = false) ∧
  (∀ i x, l !! i = Some x → (r ≤ i)%nat → P x = true).
Proof.
  intros Hl HP r. split; [apply Search_le|].
  destruct (Search_border (λ i, P (l !!! i)) (length l)) as [Hlo Hhi].
  { intros a b Hab Hb Ha.
    destruct (decide (a = b)) as [->|Hne]; [done|].
    apply (HP (l !!! a)); [|done].
    apply (StronglySorted_lookup R l a b); [done|lia|..];
      apply list_lookup_lookup_total_lt; lia. }
  split; intros i x Hi Hr.
  - specialize (Hlo i Hr). simpl in Hlo.
    by rewrite (list_lookup_total_correct _ _ _ Hi) in Hlo.
  - pose proof (lookup_lt_Some _ _ _ Hi).
    specialize (Hhi i (conj Hr ltac:(done))). simpl in Hhi.
    by rewrite (list_lookup_total_correct _ _ _ Hi) in Hhi.
Qed.

Lemma slice_get_Ok (s : list Z) (i : nat) (x : Z) :
  s !! i = Some x → slice_get s i = Ok x.
Proof. unfold slice_get. by intros ->. Qed.

Lemma IsEmpty_true (m : Consistent) : IsEmpty m = true ↔ keys m = [].
Proof.
  unfold IsEmpty. rewrite bool_decide_eq_true. apply length_zero_iff_nil.
Qed.

Lemma IsEmpty_false (m : Consistent) : IsEmpty m = false ↔ keys m ≠ [].
Proof.
  unfold IsEmpty. rewrite bool_decide_eq_false.
  by rewrite length_zero_iff_nil.
Qed.

(** ** [next] *)

(** On a ring with a member, [next] returns a position, sorted or not. *)
Lemma next_Ok (m : Consistent) (h : Z) :
  keys m ≠ [] → ∃ p, next m h = Ok p ∧ p ∈ keys m.
Proof.
  intros Hne. unfold next.
  set (r := Search _ _).
  assert (r ≤ length (keys m))%nat as Hr by apply Search_le.
  assert (0 < length (keys m))%nat as Hlen.
  { destruct (keys m); [done|simpl; lia]. }
  case_bool_decide as Hend.
  - destruct (lookup_lt_is_Some_2 (keys m) 0 Hlen) as [p Hp].
    exists p. split; [by apply slice_get_Ok|by eapply list_elem_of_lookup_2].
  - destruct (lookup_lt_is_Some_2 (keys m) r) as [p Hp]; [lia|].
    exists p. split; [by apply slice_get_Ok|by eapply list_elem_of_lookup_2].
Qed.

Lemma next_successor (m : Consistent) (h : Z) :
  StronglySorted Z.lt (keys m) → keys m ≠ [] →
  ∃ p, next m h = Ok p ∧ successor (keys m) h p.
Proof.
  intros Hsorted Hne. unfold next.
  destruct (Search_sorted Z.lt (λ x, bool_decide (h < x)) (keys m) Hsorted)
    as (Hr & Hlo & Hhi).
  { intros x y Hxy. rewrite !bool_decide_eq_true. lia. }
  set (r := Search _ _) in *.
  assert (0 < length (keys m))%nat as Hlen.
  { destruct (keys m); [done|simpl; lia]. }
  case_bool_decide as Hend.
  - destruct (lookup_lt_is_Some_2 (keys m) 0 Hlen) as [p Hp].
    exists p. split; [by apply slice_get_Ok|].
    split; [by eapply list_elem_of_lookup_2|]. right.
    split; apply Forall_forall; intros k Hk;
      apply list_elem_of_lookup_1 in Hk as [j Hj].
    + pose proof (lookup_lt_Some _ _ _ Hj).
      specialize (Hlo j k Hj ltac:(lia)).
      apply bool_decide_eq_false in Hlo. lia.
    + destruct j as [|j]; [by simplify_eq|].
      pose proof (StronglySorted_lookup Z.lt (keys m) 0 (S j) p k
                    Hsorted ltac:(lia) Hp Hj). lia.
  - destruct (lookup_lt_is_Some_2 (keys m) r) as [p Hp]; [lia|].
    exists p. split; [by apply slice_get_Ok|].
    split; [by eapply list_elem_of_lookup_2|]. left.
    pose proof (Hhi r p Hp ltac:(lia)) as Hhp.
    apply bool_decide_eq_true in Hhp. split; [done|].
    apply Forall_forall. intros k Hk Hhk.
    apply list_elem_of_lookup_1 in Hk as [j Hj].
    destruct (decide (j < r)%nat) as [Hjr|Hjr].
    + specialize (Hlo j k Hj Hjr). apply bool_decide_eq_false in Hlo. lia.
    + destruct (decide (j = r)) as [->|]; [by simplify_eq|].
      pose proof (StronglySorted_lookup Z.lt (keys m) r j p k
                    Hsorted ltac:(lia) Hp Hj). lia.
Qed.

(** ** [prev], in both revisions *)

(** Where the search of [prev] stops in the descending copy: past the end
    when every position is above [h], else at the largest one at or below. *)
Lemma prev_search (ks : list Z) (h : Z) :
  let rev := IntsReverse ks in
  let r := Search (length rev) (λ i, bool_decide (rev !!! i ≤ h)) in
  (r = length rev ∧ Forall (λ k, h < k) ks) ∨
  (∃ p, rev !! r = Some p ∧ r ≠ length rev ∧ p ∈ ks ∧ p ≤ h ∧
        Forall (λ k, k ≤ h → k ≤ p) ks).
Proof.
  intros rev r.
  pose proof (IntsReverse_sorted ks) as Hsorted. fold rev in Hsorted.
  destruct (Search_sorted (flip Z.le) (λ x, bool_decide (x ≤ h)) rev Hsorted)
    as (Hr & Hlo & Hhi).
  { intros x y Hxy. rewrite !bool_decide_eq_true. unfold flip in Hxy. lia. }
  fold r in Hr, Hlo, Hhi.
  destruct (decide (r = length rev)) as [Hend|Hend].
  - left. split; [done|]. apply Forall_forall. intros k Hk.
    apply elem_of_IntsReverse in Hk. fold rev in Hk.
    apply list_elem_of_lookup_1 in Hk as [j Hj].
    pose proof (lookup_lt_Some _ _ _ Hj).
    specialize (Hlo j k Hj ltac:(lia)).
    apply bool_decide_eq_false in Hlo. lia.
  - right. destruct (lookup_lt_is_Some_2 rev r) as [p Hp]; [lia|].
    exists p. split; [done|]. split; [done|].
    split; [apply elem_of_IntsReverse; by eapply list_elem_of_lookup_2|].
    pose proof (Hhi r p Hp ltac:(lia)) as Hph.
    apply bool_decide_eq_true in Hph. split; [done|].
    apply Forall_forall. intros k Hk Hkh.
    apply elem_of_IntsReverse in Hk. fold rev in Hk.
    apply list_elem_of_lookup_1 in Hk as [j Hj].
    destruct (decide (j < r)%nat) as [Hjr|Hjr].
    + specialize (Hlo j k Hj Hjr). apply bool_decide_eq_false in Hlo. lia.
    + destruct (decide (j = r)) as [->|]; [by simplify_eq|].
      pose proof (StronglySorted_lookup (flip Z.le) rev r j p k
                    Hsorted ltac:(lia) Hp Hj) as Hle.
      unfold flip in Hle. lia.
Qed.

Lemma IntsReverse_first (ks : list Z) (p : Z) :
  IntsReverse ks !! 0%nat = Some p → p ∈ ks ∧ Forall (λ k, k ≤ p) ks.
Proof.
  intros Hp. split.
  { apply elem_of_IntsReverse. by eapply list_elem_of_lookup_2. }
  apply Forall_forall. intros k Hk.
  apply elem_of_IntsReverse, list_elem_of_lookup_1 in Hk as [j Hj].
  destruct j as [|j]; [by simplify_eq|].
  pose proof (StronglySorted_lookup (flip Z.le) _ 0 (S j) p k
                (IntsReverse_sorted ks) ltac:(lia) Hp Hj) as Hle.
  by unfold flip in Hle.
Qed.

Lemma IntsReverse_last (ks : list Z) (p : Z) :
  IntsReverse ks !! (length (IntsReverse ks) - 1)%nat = Some p →
  p ∈ ks ∧ Forall (λ k, p ≤ k) ks.
Proof.
  intros Hp. split.
  { apply elem_of_IntsReverse. by eapply list_elem_of_lookup_2. }
  apply Forall_forall. intros k Hk.
  apply elem_of_IntsReverse, list_elem_of_lookup_1 in Hk as [j Hj].
  pose proof (lookup_lt_Some _ _ _ Hj).
  destruct (decide (j = length (IntsReverse ks) - 1)%nat) as [->|Hne];
    [simplify_eq; lia|].
  pose proof (StronglySorted_lookup (flip Z.le) _ j
                (length (IntsReverse ks) - 1) k p
                (IntsReverse_sorted ks) ltac:(lia) Hj Hp) as Hle.
  by unfold flip in Hle.
Qed.

Lemma prev_predecessor (m : Consistent) (h : Z) :
  keys m ≠ [] → ∃ p, prev m h = Ok p ∧ predecessor (keys m) h p.
Proof.
  intros Hne. unfold prev.
  assert (0 < length (IntsReverse (keys m)))%nat as Hlen.
  { rewrite length_IntsReverse. destruct (keys m); [done|simpl; lia]. }
  destruct (prev_search (keys m) h)
    as [[Hend Hall]|(p & Hp & Hend & Hin & Hph & Hall)]; simpl in *.
  - rewrite bool_decide_eq_true_2 by done.
    destruct (lookup_lt_is_Some_2 _ 0 Hlen) as [p Hp].
    exists p. split; [by apply slice_get_Ok|].
    destruct (IntsReverse_first _ _ Hp) as [Hin Hmax].
    split; [done|]. by right.
  - rewrite bool_decide_eq_false_2 by done.
    exists p. split; [by apply slice_get_Ok|].
    split; [done|]. by left.
Qed.

Lemma Rev1_prev_predecessor (m : Consistent) (h : Z) :
  keys m ≠ [] →
  ∃ p, Rev1.prev m h = Ok p ∧ predecessor_or_least (keys m) h p.
Proof.
  intros Hne. unfold Rev1.prev.
  assert (0 < length (IntsReverse (keys m)))%nat as Hlen.
  { rewrite length_IntsReverse. destruct (keys m); [done|simpl; lia]. }
  destruct (prev_search (keys m) h)
    as [[Hend Hall]|(p & Hp & Hend & Hin & Hph & Hall)]; simpl in *.
  - rewrite bool_decide_eq_true_2 by done. rewrite Hend.
    destruct (lookup_lt_is_Some_2 (IntsReverse (keys m))
                (length (IntsReverse (keys m)) - 1)) as [p Hp]; [lia|].
    exists p. split; [by apply slice_get_Ok|].
    destruct (IntsReverse_last _ _ Hp) as [Hin Hmin].
    split; [done|]. by right.
  - rewrite bool_decide_eq_false_2 by done.
    exists p. split; [by apply slice_get_Ok|].
    split; [done|]. by left.
Qed.

(** ** [Add] and [Remove] keep the ring well formed *)

Lemma remove_at_elem (l : list Z) (i : nat) (h p : Z) :
  l !! i = Some h → p ≠ h → p ∈ take i l ++ drop (S i) l ↔ p ∈ l.
Proof.
  intros Hi Hp. rewrite <-(take_drop_middle l i h Hi) at 3.
  rewrite !elem_of_app, elem_of_cons. tauto.
Qed.

Lemma remove_at_sorted (l : list Z) (i : nat) (h : Z) :
  StronglySorted Z.lt l → l !! i = Some h →
  StronglySorted Z.lt (take i l ++ drop (S i) l) ∧
  h ∉ take i l ++ drop (S i) l.
Proof.
  intros Hl Hi. rewrite <-(take_drop_middle l i h Hi) in Hl.
  apply StronglySorted_app in Hl as (Hcross & Hl1 & Hl2).
  apply StronglySorted_cons in Hl2 as [Hh Hl2].
  rewrite Forall_forall in Hh. split.
  - apply StronglySorted_app_2; [|done..].
    intros x1 x2 H1 H2. apply Hcross; [done|]. by right.
  - rewrite elem_of_app. intros [Hin|Hin].
    + specialize (Hcross h h Hin ltac:(left)). lia.
    + specialize (Hh h Hin). lia.
Qed.

(** On a sorted slice [sort.SearchInts] finds the position that is there. *)
Lemma SearchInts_found (l : list Z) (h : Z) :
  StronglySorted Z.lt l → h ∈ l → l !! SearchInts l h = Some h.
Proof.
  intros Hl Hin. unfold SearchInts.
  destruct (Search_sorted Z.lt (λ x, bool_decide (h ≤ x)) l Hl)
    as (Hr & Hlo & Hhi).
  { intros x y Hxy. rewrite !bool_decide_eq_true. lia. }
  set (r := Search _ _) in *.
  apply list_elem_of_lookup_1 in Hin as [j Hj].
  pose proof (lookup_lt_Some _ _ _ Hj) as Hjlen.
  assert (r ≤ j)%nat as Hrj.
  { destruct (decide (r ≤ j)%nat) as [|Hn]; [done|].
    specialize (Hlo j h Hj ltac:(lia)).
    apply bool_decide_eq_false in Hlo. lia. }
  destruct (decide (r = j)) as [->|Hne]; [done|].
  destruct (lookup_lt_is_Some_2 l r) as [x Hx]; [lia|].
  pose proof (Hhi r x Hx ltac:(lia)) as Hhx. apply bool_decide_eq_true in Hhx.
  pose proof (StronglySorted_lookup Z.lt l r j x h Hl ltac:(lia) Hx Hj). lia.
Qed.

Lemma New_inv (fn : option HashFunc) : ring_inv (New fn).
Proof.
  split; simpl.
  - constructor.
  - intros p. rewrite lookup_empty, elem_of_nil. split; [done|].
    by intros [? ?].
  - intros p key. by rewrite lookup_empty.
Qed.

Lemma Add_inv (m : Consistent) (key : string) :
  ring_inv m → ring_inv (Add m key).1.
Proof.
  intros [Hsorted Hdom Howner]. split; simpl.
  - destruct (hashMap m !! Hash m key) eqn:Hlk; [done|].
    apply StronglySorted_le_NoDup_lt; [apply Ints_sorted|].
    rewrite Ints_Permutation. apply NoDup_app.
    split; [by apply StronglySorted_lt_NoDup|].
    split; [|apply NoDup_singleton].
    intros x Hx Hxh%list_elem_of_singleton. subst x.
    apply Hdom in Hx as [? Hx]. congruence.
  - intros p. rewrite lookup_insert_is_Some.
    destruct (hashMap m !! Hash m key) eqn:Hlk.
    + rewrite Hdom. split; [|intros [<- |[_ ?]]; [by eexists|done]].
      intros Hp. destruct (decide (Hash m key = p)); [by left|by right].
    + rewrite elem_of_Ints, elem_of_app, list_elem_of_singleton, Hdom.
      split.
      * intros [Hp| ->]; [|by left].
        destruct (decide (Hash m key = p)); [by left|by right].
      * intros [<- |[_ Hp]]; [by right|by left].
  - intros p key'. unfold Hash. simpl. fold (Hash m key) (Hash m key').
    rewrite lookup_insert_Some. intros [[<- <-] |[_ Hlk]]; [done|].
    by apply Howner.
Qed.

Lemma Remove_inv (m : Consistent) (key : string) :
  ring_inv m → ring_inv (Remove m key).
Proof.
  intros [Hsorted Hdom Howner].
  set (h := Hash m key).
  assert (StronglySorted Z.lt (keys (Remove m key)) ∧
          ∀ p, p ∈ keys (Remove m key) ↔ p ∈ keys m ∧ p ≠ h) as [Hs He].
  { unfold Remove. simpl. fold h.
    destruct (decide (h ∈ keys m)) as [Hin|Hnin].
    - pose proof (SearchInts_found _ _ Hsorted Hin) as Hi. rewrite Hi.
      rewrite bool_decide_eq_true_2 by done.
      destruct (remove_at_sorted _ _ _ Hsorted Hi) as [Hs' Hnin'].
      rewrite (Ints_of_sorted _ Hs'). split; [done|].
      intros p. destruct (decide (p = h)) as [->|Hne]; [tauto|].
      rewrite (remove_at_elem _ _ _ _ Hi Hne). tauto.
    - assert (Hsame : ∀ p, p ∈ keys m ↔ p ∈ keys m ∧ p ≠ h).
      { intros p. split; [|tauto]. intros Hp. split; [done|]. by intros ->. }
      destruct (keys m !! SearchInts (keys m) h) as [k|] eqn:Hi;
        [|by rewrite (Ints_of_sorted _ Hsorted)].
      case_bool_decide as Hk; [|by rewrite (Ints_of_sorted _ Hsorted)].
      subst k. exfalso. apply Hnin. by eapply list_elem_of_lookup_2. }
  split.
  - done.
  - intros p. rewrite He, Hdom. simpl. fold h.
    rewrite lookup_delete_is_Some. split; intros [? ?]; split; auto.
  - intros p key'. unfold Hash. simpl. fold (Hash m key) (Hash m key').
    rewrite lookup_delete_Some. intros [_ Hlk]. by apply Howner.
Qed.

Lemma reachable_inv (m : Consistent) : reachable m → ring_inv m.
Proof. induction 1; auto using New_inv, Add_inv, Remove_inv. Qed.

Lemma reachable_hash_uint32 (m : Consistent) :
  reachable m → ∀ data, is_uint32 (hash m data).
Proof.
  induction 1 as [[f|] Hfn| |]; simpl; auto using ChecksumIEEE_uint32.
Qed.

Lemma reachable_keys_uint32 (m : Consistent) (p : Z) :
  reachable m → p ∈ keys m → is_uint32 p.
Proof.
  intros Hm Hp. destruct (reachable_inv m Hm) as [_ Hdom Howner].
  apply Hdom in Hp as [key Hkey]. rewrite <-(Howner _ _ Hkey).
  by apply reachable_hash_uint32.
Qed.

Lemma run_snoc (ops : list op) (o : op) (m : Consistent) :
  run (ops ++ [o]) m = apply_op (run ops m) o.
Proof. unfold run. by rewrite fold_left_app. Qed.

Lemma reachable_run (fn : option HashFunc) (ops : list op) :
  hash_ok fn → reachable (run ops (New fn)).
Proof.
  intros Hfn. induction ops as [|o ops IH] using rev_ind.
  - by constructor.
  - rewrite run_snoc. destruct o; simpl; by constructor.
Qed.

Lemma run_inv (ops : list op) (m : Consistent) :
  ring_inv m → ring_inv (run ops m).
Proof.
  revert m. induction ops as [|o ops IH]; intros m Hm; simpl; [done|].
  apply IH. destruct o; [by apply Add_inv|by apply Remove_inv].
Qed.

Lemma reachable_nonempty_owner (m : Consistent) (p : Z) :
  reachable m → p ∈ keys m →
  ∃ member, hashMap m !! p = Some member ∧ owner m p = member.
Proof.
  intros Hm Hp. destruct (reachable_inv m Hm) as [_ Hdom _].
  apply Hdom in Hp as [member Hlk]. exists member.
  split; [done|]. unfold owner. by rewrite Hlk.
Qed.

(** ** Rings and keys used as examples *)

Local Open Scope string_scope.
Local Open Scope Z_scope.

Lemma ring_of_reachable (members : list string) : reachable (ring_of members).
Proof. apply reachable_run. simpl. apply first_byte_uint32. Qed.

Example ChecksumIEEE_check :
  ChecksumIEEE (String.list_byte_of_string "123456789") = 0xCBF43926.
Proof. reflexivity. Qed.

Example ring_of_example :
  keys (ring_of ["Z"; "A"; "2"]) = [50; 65; 90] ∧
  hashMap (ring_of ["Z"; "A"; "2"]) !! 50 = Some "2".
Proof. split; reflexivity. Qed.

Example places_example :
  successor [50; 65; 90] 65 90 ∧ successor [50; 65; 90] 95 50 ∧
  predecessor [50; 65; 90] 70 65 ∧ predecessor [50; 65; 90] 5 90 ∧
  predecessor_or_least [50; 65; 90] 5 50.
Proof. repeat apply conj; by apply (bool_decide_unpack _); vm_compute. Qed.

Example PrevN_example :
  PrevN (ring_of ["Z"; "A"; "2"]) "[" 4 = Ok ["Z"; "A"; "2"; "Z"].
Proof. reflexivity. Qed.

(** ** The walk of [NextN] *)

Lemma slice_set_in {A : Type} (s : list A) (i : Z) (v : A) :
  0 ≤ i < Z.of_nat (length s) → slice_set s i v = Ok (<[Z.to_nat i := v]> s).
Proof. intros Hi. unfold slice_set. by rewrite bool_decide_eq_true_2. Qed.

Lemma slice_set_out {A : Type} (s : list A) (i : Z) (v : A) :
  ¬ (0 ≤ i < Z.of_nat (length s)) → slice_set s i v = Panic IndexOutOfRange.
Proof. intros Hi. unfold slice_set. by rewrite bool_decide_eq_false_2. Qed.

(** The loop of [NextN], entered with [i ≤ count] and [n] turns to go up
    to and including [i = count], ends in the write at index [count]. *)
Lemma NextN_loop_panics (m : Consistent) (count : Z) (n : nat) :
  keys m ≠ [] → 0 ≤ count < 2 ^ 63 →
  ∀ (i h : Z) (locations : list string),
    Z.of_nat (length locations) = count →
    0 ≤ i → i + Z.of_nat n = count + 1 → (0 < n)%nat →
    for_range n i (NextN_body m) (h, locations) = Panic IndexOutOfRange.
Proof.
  intros Hne Hcount. induction n as [|n IH]; intros i h locations Hlen Hi Hn Hpos;
    [lia|].
  cbn [for_range]. unfold NextN_body at 1. cbn [fst snd].
  destruct (next_Ok m h Hne) as (p & -> & _). cbn [rbind].
  destruct (decide (i < count)) as [Hlt|Hge].
  - rewrite slice_set_in by lia. cbn [rbind].
    unfold int_add. rewrite int_wrap_id by lia.
    apply IH; [by rewrite length_insert|lia|lia|lia].
  - by rewrite slice_set_out by lia.
Qed.

(** The loop of [PrevN] stops before [i = count] and fills the slice. *)
Lemma PrevN_loop_Ok (m : Consistent) (count : Z) (n : nat) :
  keys m ≠ [] → 0 ≤ count < 2 ^ 63 →
  ∀ (i index : Z) (locations : list string),
    Z.of_nat (length locations) = count →
    0 ≤ i → i + Z.of_nat n = count →
    ∃ s, for_range n i (PrevN_body m) (index, locations) = Ok s ∧
         Z.of_nat (length s.2) = count.
Proof.
  intros Hne Hcount.
  induction n as [|n IH]; intros i index locations Hlen Hi Hn.
  { by exists (index, locations). }
  cbn [for_range]. unfold PrevN_body at 1. cbn [fst snd].
  rewrite slice_set_in by lia. cbn [rbind].
  destruct (prev_predecessor m (int_sub index 1) Hne) as (p & -> & _).
  cbn [rbind]. unfold int_add. rewrite int_wrap_id by lia.
  apply IH; [by rewrite length_insert|lia|lia].
Qed.

(** The sibling walk returns: on a ring with a member [PrevN] yields
    [count] entries. *)
Lemma PrevN_length (m : Consistent) (key : string) (count : Z) :
  keys m ≠ [] → 0 ≤ count < 2 ^ 63 →
  ∃ l, PrevN m key count = Ok l ∧ Z.of_nat (length l) = count.
Proof.
  intros Hne Hcount. unfold PrevN.
  rewrite (proj2 (IsEmpty_false m) Hne).
  unfold make_strings. rewrite bool_decide_eq_false_2 by lia. cbn [rbind].
  destruct (prev_predecessor m (Hash m key) Hne) as (index & -> & _).
  cbn [rbind]. rewrite Z.sub_0_r.
  destruct (PrevN_loop_Ok m count (Z.to_nat count) Hne Hcount 0 index
              (replicate (Z.to_nat count) ""))
    as (s & -> & Hlen); [rewrite length_replicate; lia|lia|lia|].
  by exists s.2.
Qed.

(** C1, as the code has it: on a ring with a member [NextN] does not
    return, whatever the count.  For a count from 0 on, the loop runs for
    [i = 0 .. count] inclusive and its last turn writes [locations[count]]
    in a slice of length [count], the run-time panic "index out of range";
    for a negative count [make] panics.  The claim's sequence of [count]
    owners is never returned. *)
Theorem NextN_index_out_of_range (m : Consistent) (key : string) (count : Z) :
  keys m ≠ [] → count < 2 ^ 63 →
  NextN m key count =
  Panic (if bool_decide (count < 0) then MakeSliceLenOutOfRange
         else IndexOutOfRange).
Proof.
  intros Hne Hcount. unfold NextN.
  rewrite (proj2 (IsEmpty_false m) Hne).
  unfold make_strings. case_bool_decide as Hneg; [reflexivity|].
  cbn [rbind].
  rewrite (NextN_loop_panics m count); [reflexivity|done|lia| | | |]; try lia.
  rewrite length_replicate. lia.
Qed.

Lemma NextN_index_out_of_range_witness :
  keys (ring_of ["A"]) ≠ [] ∧ 1 < 2 ^ 63 ∧
  NextN (ring_of ["A"]) "A" 1 = Panic IndexOutOfRange.
Proof.
  split; [by vm_compute|]. split; [lia|].
  apply (NextN_index_out_of_range (ring_of ["A"]) "A" 1); [by vm_compute|lia].
Defined.

(** ** C2: [prev] *)

(** C2, the claim as written, fails: with positions 50 and 65 occupied
    and nothing at or below 5, [prev 5] is 65, the largest position, not
    the smallest. *)
Lemma prev_wraps_to_smallest_counterexample :
  keys (ring_of ["2"; "A"]) = [50; 65] ∧
  prev (ring_of ["2"; "A"]) 5 = Ok 65 ∧
  ¬ predecessor_or_least (keys (ring_of ["2"; "A"])) 5 65.
Proof.
  split; [reflexivity|]. split; [reflexivity|].
  by apply (bool_decide_unpack _); vm_compute.
Qed.

(** C2, amended: on every ring with a member, [prev h] returns the largest
    occupied position less than or equal to [h], and when no occupied
    position is at or below [h] it wraps to the largest occupied position
    overall. *)
Theorem prev_largest_at_or_below (m : Consistent) (h : Z) :
  keys m ≠ [] → ∃ p, prev m h = Ok p ∧ predecessor (keys m) h p.
Proof. apply prev_predecessor. Qed.

Lemma prev_largest_at_or_below_witness :
  keys (ring_of ["2"; "A"]) ≠ [] ∧
  ∃ p, prev (ring_of ["2"; "A"]) 5 = Ok p ∧
       predecessor (keys (ring_of ["2"; "A"])) 5 p.
Proof.
  split; [by vm_compute|].
  apply prev_largest_at_or_below. by vm_compute.
Defined.

(** ** C3 and C4: [GetFromHash], [Get] and [Next] *)

Lemma Next_owner_of_successor (m : Consistent) (key : string) :
  reachable m → keys m ≠ [] →
  ∃ p member,
    next m (Hash m key) = Ok p ∧ successor (keys m) (Hash m key) p ∧
    hashMap m !! p = Some member ∧ Next m key = Ok member.
Proof.
  intros Hm Hne. pose proof (reachable_inv m Hm) as [Hsorted _ _].
  destruct (next_successor m (Hash m key) Hsorted Hne) as (p & Hp & Hsucc).
  destruct (reachable_nonempty_owner m p Hm (proj1 Hsucc))
    as (member & Hlk & Hown).
  exists p, member. split; [done|]. split; [done|]. split; [done|].
  unfold Next. rewrite (proj2 (IsEmpty_false m) Hne), Hp. simpl.
  by rewrite Hown.
Qed.

(** With two positions or more, the successor of an occupied position is
    another position. *)
Lemma successor_of_occupied (ks : list Z) (h p : Z) :
  StronglySorted Z.lt ks → (2 ≤ length ks)%nat → h ∈ ks →
  successor ks h p → p ≠ h.
Proof.
  intros Hsorted Hlen Hh [_ [[Hhp _]|[Hmax Hmin]]]; [lia|].
  intros ->. rewrite Forall_forall in Hmax, Hmin.
  destruct ks as [|a [|b ks]]; simpl in Hlen; [lia..|].
  apply StronglySorted_cons in Hsorted as [Hab _].
  apply Forall_cons in Hab as [Hab _].
  pose proof (Hmax a ltac:(left)). pose proof (Hmin a ltac:(left)).
  pose proof (Hmax b ltac:(right; left)).
  pose proof (Hmin b ltac:(right; left)). lia.
Qed.

(** C3, the claim as written, fails: with "B" at 66 and "D" at 68,
    [GetFromHash 67] is "B", the member at the position at or below 67,
    while the [Get] that is [Next] gives a key hashed to 67 the member
    "D" at [next 67 = 68]. *)
Lemma GetFromHash_not_next_counterexample :
  keys (ring_of ["B"; "D"]) = [66; 68] ∧
  Hash (ring_of ["B"; "D"]) "C" = 67 ∧
  Rev1.GetFromHash (ring_of ["B"; "D"]) 67 = Ok "B" ∧
  next (ring_of ["B"; "D"]) 67 = Ok 68 ∧
  Get (ring_of ["B"; "D"]) "C" = Ok "D" ∧
  Rev1.GetFromHash (ring_of ["B"; "D"]) (Hash (ring_of ["B"; "D"]) "C")
    ≠ Get (ring_of ["B"; "D"]) "C".
Proof. repeat split; try reflexivity. by vm_compute. Qed.

(** C3, amended: on every ring with a member and for every position [h],
    [GetFromHash h] returns the member that the [Get] of its own revision
    assigns to a key whose hash is [h], namely the owner of [prev h] as
    that revision has it: the largest occupied position less than or equal
    to [h], or the smallest occupied position when none is at or below. *)
Theorem GetFromHash_owner_of_prev (m : Consistent) (h : Z) :
  reachable m → keys m ≠ [] →
  (∀ key, Hash m key = h → Rev1.Get m key = Rev1.GetFromHash m h) ∧
  ∃ p member,
    Rev1.prev m h = Ok p ∧ predecessor_or_least (keys m) h p ∧
    hashMap m !! p = Some member ∧ Rev1.GetFromHash m h = Ok member.
Proof.
  intros Hm Hne. split.
  { intros key <-. reflexivity. }
  destruct (Rev1_prev_predecessor m h Hne) as (p & Hp & Hpred).
  destruct (reachable_nonempty_owner m p Hm (proj1 Hpred))
    as (member & Hlk & Hown).
  exists p, member. split; [done|]. split; [done|]. split; [done|].
  unfold Rev1.GetFromHash.
  rewrite (proj2 (IsEmpty_false m) Hne), Hp. simpl. by rewrite Hown.
Qed.

Lemma GetFromHash_owner_of_prev_witness :
  reachable (ring_of ["B"; "D"]) ∧ keys (ring_of ["B"; "D"]) ≠ [] ∧
  (∀ key, Hash (ring_of ["B"; "D"]) key = 67 →
          Rev1.Get (ring_of ["B"; "D"]) key
          = Rev1.GetFromHash (ring_of ["B"; "D"]) 67) ∧
  ∃ p member,
    Rev1.prev (ring_of ["B"; "D"]) 67 = Ok p ∧
    predecessor_or_least (keys (ring_of ["B"; "D"])) 67 p ∧
    hashMap (ring_of ["B"; "D"]) !! p = Some member ∧
    Rev1.GetFromHash (ring_of ["B"; "D"]) 67 = Ok member.
Proof.
  split; [apply ring_of_reachable|]. split; [by vm_compute|].
  apply GetFromHash_owner_of_prev; [apply ring_of_reachable|by vm_compute].
Defined.

(** C4, the claim as written, fails for a ring of one member: "A" alone
    on the ring sits at [Hash "A"], and [Get "A"] is "A", the member at
    that very position. *)
Lemma Get_sole_member_counterexample :
  keys (ring_of ["A"]) = [65] ∧
  Hash (ring_of ["A"]) "A" = 65 ∧
  hashMap (ring_of ["A"]) !! 65 = Some "A" ∧
  Get (ring_of ["A"]) "A" = Ok "A".
Proof. repeat split; reflexivity. Qed.

(** C4, amended: for every ring and key, [Get key] equals [Next key]; on
    a ring with a member both return the owner of the smallest occupied
    position strictly greater than [Hash key] (wrapping to the smallest
    position overall), so a key whose hash equals an occupied position is
    assigned to that position's successor, which, when two positions or
    more are occupied, is not the member at that position. *)
Theorem Get_is_Next_strict_successor (m : Consistent) (key : string) :
  Get m key = Next m key ∧
  (reachable m → keys m ≠ [] →
   ∃ p member,
     successor (keys m) (Hash m key) p ∧
     hashMap m !! p = Some member ∧
     Get m key = Ok member ∧ Next m key = Ok member ∧
     (Hash m key ∈ keys m → (2 ≤ length (keys m))%nat →
      p ≠ Hash m key ∧ hashMap m !! Hash m key ≠ Some member)).
Proof.
  split; [reflexivity|]. intros Hm Hne.
  destruct (Next_owner_of_successor m key Hm Hne)
    as (p & member & Hp & Hsucc & Hlk & HNext).
  exists p, member. do 4 (split; [done|]). intros Hin Hlen. split.
  - pose proof (reachable_inv m Hm) as [Hsorted _ _].
    by eapply successor_of_occupied.
  - intros Hlk'. pose proof (reachable_inv m Hm) as [Hsorted _ Howner].
    apply (successor_of_occupied (keys m) (Hash m key) p); try done.
    rewrite <-(Howner _ _ Hlk). by apply Howner.
Qed.

Lemma Get_is_Next_strict_successor_witness :
  reachable (ring_of ["B"; "D"]) ∧ keys (ring_of ["B"; "D"]) ≠ [] ∧
  Hash (ring_of ["B"; "D"]) "B" ∈ keys (ring_of ["B"; "D"]) ∧
  (2 ≤ length (keys (ring_of ["B"; "D"])))%nat ∧
  ∃ p member,
    successor (keys (ring_of ["B"; "D"])) (Hash (ring_of ["B"; "D"]) "B") p ∧
    Get (ring_of ["B"; "D"]) "B" = Ok member ∧
    p ≠ Hash (ring_of ["B"; "D"]) "B" ∧
    hashMap (ring_of ["B"; "D"]) !! Hash (ring_of ["B"; "D"]) "B"
      ≠ Some member.
Proof.
  assert (Hin : Hash (ring_of ["B"; "D"]) "B" ∈ keys (ring_of ["B"; "D"]))
    by (vm_compute; left).
  assert (Hlen : (2 ≤ length (keys (ring_of ["B"; "D"])))%nat)
    by (vm_compute; lia).
  split; [apply ring_of_reachable|]. split; [by vm_compute|].
  split; [exact Hin|]. split; [exact Hlen|].
  destruct (Get_is_Next_strict_successor (ring_of ["B"; "D"]) "B")
    as [_ Hsucc].
  destruct (Hsucc (ring_of_reachable _) ltac:(by vm_compute))
    as (p & member & Hp & _ & HGet & _ & Hother).
  destruct (Hother Hin Hlen) as [Hne Hmember].
  exists p, member. do 3 (split; [assumption|]). assumption.
Defined.

(** ** C5: [Range] *)

(** C5: on the empty ring [Range host] is [(0, 0)]; on a ring with a
    member it is [(from, to)] with [to = Hash host] and
    [from = prev (to - 1) + 1], in plain integers: on the positions of a
    ring neither the subtraction nor the addition wraps. *)
Theorem Range_from_prev (m : Consistent) (host : string) :
  (keys m = [] → Range m host = Ok (0, 0)) ∧
  (reachable m → keys m ≠ [] →
   ∃ p, prev m (Hash m host - 1) = Ok p ∧
        Range m host = Ok (p + 1, Hash m host)).
Proof.
  split.
  { intros Hnil. unfold Range. by rewrite (proj2 (IsEmpty_true m) Hnil). }
  intros Hm Hne.
  pose proof (reachable_hash_uint32 m Hm (String.list_byte_of_string host))
    as Hto. fold (Hash m host) in Hto. unfold is_uint32 in Hto.
  destruct (prev_predecessor m (Hash m host - 1) Hne) as (p & Hp & Hin & _).
  pose proof (reachable_keys_uint32 m p Hm Hin) as Hrange.
  unfold is_uint32 in Hrange.
  exists p. split; [done|]. unfold Range.
  rewrite (proj2 (IsEmpty_false m) Hne). unfold int_sub, int_add.
  rewrite (int_wrap_id (Hash m host - 1)) by lia. rewrite Hp. simpl.
  by rewrite int_wrap_id by lia.
Qed.

Lemma Range_from_prev_witness :
  keys (New None) = [] ∧ Range (New None) "A" = Ok (0, 0) ∧
  reachable (ring_of ["2"; "A"; "Z"]) ∧ keys (ring_of ["2"; "A"; "Z"]) ≠ [] ∧
  ∃ p, prev (ring_of ["2"; "A"; "Z"]) (Hash (ring_of ["2"; "A"; "Z"]) "A" - 1)
       = Ok p ∧
       Range (ring_of ["2"; "A"; "Z"]) "A"
       = Ok (p + 1, Hash (ring_of ["2"; "A"; "Z"]) "A").
Proof.
  split; [reflexivity|].
  split; [by apply (Range_from_prev (New None) "A")|].
  split; [apply ring_of_reachable|]. split; [by vm_compute|].
  apply (Range_from_prev (ring_of ["2"; "A"; "Z"]) "A");
    [apply ring_of_reachable|by vm_compute].
Defined.

Example Range_example :
  Range (ring_of ["2"; "A"; "Z"]) "A" = Ok (51, 65) ∧
  Range (ring_of ["2"; "A"; "Z"]) "2" = Ok (91, 50).
Proof. split; reflexivity. Qed.

(** ** C6: the positions stay sorted and match the owners *)

(** C6: after every finite sequence of [Add] and [Remove] calls that
    starts from the empty ring of [New], whatever the hash function, the
    position sequence is strictly ascending, has no duplicates, and its
    set of elements is the key set of the position-to-owner map. *)
Theorem positions_sorted_and_owned (fn : option HashFunc) (ops : list op) :
  StronglySorted Z.lt (keys (run ops (New fn))) ∧
  NoDup (keys (run ops (New fn))) ∧
  list_to_set (keys (run ops (New fn))) =@{gset Z}
    dom (hashMap (run ops (New fn))).
Proof.
  destruct (run_inv ops (New fn) (New_inv fn)) as [Hsorted Hdom _].
  split; [done|]. split; [by apply StronglySorted_lt_NoDup|].
  apply set_eq. intros p. by rewrite elem_of_list_to_set, elem_of_dom.
Qed.

(** ** C7: membership round trip *)

Lemma Has_true (m : Consistent) (key : string) :
  Has m key = true ↔ is_Some (hashMap m !! Hash m key).
Proof.
  unfold Has. destruct (hashMap m !! Hash m key) as [member|].
  - split; [by eexists|done].
  - split; [done|by intros [? ?]].
Qed.

Lemma Hash_Add (m : Consistent) (key key' : string) :
  Hash (Add m key).1 key' = Hash m key'.
Proof. reflexivity. Qed.

Lemma Hash_Remove (m : Consistent) (key key' : string) :
  Hash (Remove m key) key' = Hash m key'.
Proof. reflexivity. Qed.

Lemma Has_Add (m : Consistent) (key : string) : Has (Add m key).1 key = true.
Proof.
  apply Has_true. rewrite Hash_Add. simpl. rewrite lookup_insert_eq.
  by eexists.
Qed.

Lemma Has_Remove (m : Consistent) (key : string) :
  Has (Remove m key) key = false.
Proof.
  unfold Has. rewrite Hash_Remove. simpl. by rewrite lookup_delete_eq.
Qed.

Lemma Add_nonempty (m : Consistent) (key : string) :
  reachable m → keys (Add m key).1 ≠ [].
Proof.
  intros Hm Hnil.
  pose proof (reachable_inv _ (reach_Add m key Hm)) as [_ Hdom _].
  assert (Hash m key ∈ keys (Add m key).1) as Hin.
  { apply Hdom. simpl. rewrite lookup_insert_eq. by eexists. }
  rewrite Hnil in Hin. by apply elem_of_nil in Hin.
Qed.

(** C7: for every ring and key, right after [Add key], [Has key] is true
    and [Get key] returns the owner of [next (Hash key)], the strict
    successor of the key's own position; after a following [Remove key],
    [Has key] is false. *)
Theorem Add_Has_Get_Remove (m : Consistent) (key : string) :
  reachable m →
  Has (Add m key).1 key = true ∧
  (∃ p member,
     next (Add m key).1 (Hash (Add m key).1 key) = Ok p ∧
     successor (keys (Add m key).1) (Hash (Add m key).1 key) p ∧
     hashMap (Add m key).1 !! p = Some member ∧
     Get (Add m key).1 key = Ok member) ∧
  Has (Remove (Add m key).1 key) key = false.
Proof.
  intros Hm. split; [apply Has_Add|]. split; [|apply Has_Remove].
  apply Next_owner_of_successor; [by constructor|by apply Add_nonempty].
Qed.

Lemma Add_Has_Get_Remove_witness :
  reachable (ring_of ["B"; "D"]) ∧
  Has (Add (ring_of ["B"; "D"]) "C").1 "C" = true ∧
  (∃ p member,
     next (Add (ring_of ["B"; "D"]) "C").1
          (Hash (Add (ring_of ["B"; "D"]) "C").1 "C") = Ok p ∧
     successor (keys (Add (ring_of ["B"; "D"]) "C").1)
               (Hash (Add (ring_of ["B"; "D"]) "C").1 "C") p ∧
     hashMap (Add (ring_of ["B"; "D"]) "C").1 !! p = Some member ∧
     Get (Add (ring_of ["B"; "D"]) "C").1 "C" = Ok member) ∧
  Has (Remove (Add (ring_of ["B"; "D"]) "C").1 "C") "C" = false.
Proof.
  split; [apply ring_of_reachable|].
  apply Add_Has_Get_Remove. apply ring_of_reachable.
Defined.

Example Add_Get_example :
  Get (Add (ring_of ["B"; "D"]) "C").1 "C" = Ok "D" ∧
  Get (Add (New None) "node-1").1 "node-1" = Ok "node-1".
Proof. split; reflexivity. Qed.

(** ** C8: collisions and repeated [Add] *)

Lemma Add_idempotent (m : Consistent) (key : string) :
  Add (Add m key).1 key = Add m key.
Proof.
  unfold Add. cbn [fst]. unfold Hash. cbn [hash keys hashMap].
  fold (Hash m key). rewrite lookup_insert_eq, insert_insert_eq.
  reflexivity.
Qed.

Lemma count_occ_sorted (l : list Z) (x : Z) :
  StronglySorted Z.lt l → x ∈ l → count_occ Z.eq_dec l x = 1%nat.
Proof.
  intros Hl Hx. apply StronglySorted_lt_NoDup, NoDup_ListNoDup in Hl.
  apply (proj1 (NoDup_count_occ' Z.eq_dec l) Hl). by apply list_elem_of_In.
Qed.

(** C8: when [k1] and [k2] hash to the same position, after [Add k1] then
    [Add k2] the owner at that position is [k2], the position occurs
    exactly once among the positions, and both calls return it; and [Add]
    of the same key twice leaves the ring, and returns the position, as
    the first [Add] did. *)
Theorem Add_collision_overwrites (m : Consistent) (k1 k2 : string) :
  (reachable m → Hash m k1 = Hash m k2 →
   hashMap (Add (Add m k1).1 k2).1 !! Hash m k1 = Some k2 ∧
   count_occ Z.eq_dec (keys (Add (Add m k1).1 k2).1) (Hash m k1) = 1%nat ∧
   (Add m k1).2 = Hash m k1 ∧
   (Add (Add m k1).1 k2).2 = Hash m k1) ∧
  Add (Add m k1).1 k1 = Add m k1.
Proof.
  split; [|apply Add_idempotent]. intros Hm Hcoll.
  assert (Hlk : hashMap (Add (Add m k1).1 k2).1 !! Hash m k1 = Some k2).
  { change (<[Hash m k2 := k2]> (<[Hash m k1 := k1]> (hashMap m))
              !! Hash m k1 = Some k2).
    rewrite <-Hcoll. apply lookup_insert_eq. }
  split; [done|]. split; [|split; [done|]].
  - pose proof (reachable_inv _ (reach_Add _ k2 (reach_Add m k1 Hm)))
      as [Hsorted Hdom _].
    apply count_occ_sorted; [done|]. apply Hdom. by eexists.
  - change (Hash m k2 = Hash m k1). by symmetry.
Qed.

Lemma Add_collision_overwrites_witness :
  reachable (ring_of ["B"; "D"]) ∧
  Hash (ring_of ["B"; "D"]) "C1" = Hash (ring_of ["B"; "D"]) "C2" ∧
  hashMap (Add (Add (ring_of ["B"; "D"]) "C1").1 "C2").1
    !! Hash (ring_of ["B"; "D"]) "C1" = Some "C2" ∧
  count_occ Z.eq_dec (keys (Add (Add (ring_of ["B"; "D"]) "C1").1 "C2").1)
    (Hash (ring_of ["B"; "D"]) "C1") = 1%nat ∧
  (Add (ring_of ["B"; "D"]) "C1").2 = Hash (ring_of ["B"; "D"]) "C1" ∧
  (Add (Add (ring_of ["B"; "D"]) "C1").1 "C2").2
  = Hash (ring_of ["B"; "D"]) "C1".
Proof.
  split; [apply ring_of_reachable|]. split; [reflexivity|].
  apply (Add_collision_overwrites (ring_of ["B"; "D"]) "C1" "C2");
    [apply ring_of_reachable|reflexivity].
Defined.

Example Add_collision_example :
  keys (Add (Add (ring_of ["B"; "D"]) "C1").1 "C2").1 = [66; 67; 68] ∧
  owner (Add (Add (ring_of ["B"; "D"]) "C1").1 "C2").1 67 = "C2".
Proof. split; reflexivity. Qed.

(** ** C9: the empty ring *)

(** C9: on the empty ring every lookup returns its sentinel: [Get] and
    [Next] the empty string, [NextN] and [PrevN] the nil slice, whatever
    the count, and [Range] the pair [(0, 0)].  None of them has gone
    through [next] or [prev]: on no position at all either search ends in
    an index out of range, which a lookup would have passed on. *)
Theorem empty_ring_sentinels (m : Consistent) (key : string) (count h : Z) :
  IsEmpty m = true →
  Get m key = Ok "" ∧ Next m key = Ok "" ∧
  NextN m key count = Ok [] ∧ PrevN m key count = Ok [] ∧
  Range m key = Ok (0, 0) ∧
  next m h = Panic IndexOutOfRange ∧ prev m h = Panic IndexOutOfRange.
Proof.
  intros Hempty. unfold Get, Next, NextN, PrevN, Range. rewrite Hempty.
  do 5 (split; [reflexivity|]).
  apply IsEmpty_true in Hempty. unfold next, prev. rewrite Hempty.
  split; reflexivity.
Qed.

Lemma empty_ring_sentinels_witness :
  IsEmpty (New None) = true ∧
  Get (New None) "A" = Ok "" ∧ Next (New None) "A" = Ok "" ∧
  NextN (New None) "A" 3 = Ok [] ∧ PrevN (New None) "A" 3 = Ok [] ∧
  Range (New None) "A" = Ok (0, 0) ∧
  next (New None) 7 = Panic IndexOutOfRange ∧
  prev (New None) 7 = Panic IndexOutOfRange.
Proof.
  split; [reflexivity|].
  apply (empty_ring_sentinels (New None) "A" 3 7). reflexivity.
Defined.

(** ** C10: [Add] and [Remove] touch one position *)

Lemma Remove_keys_other (m : Consistent) (key : string) (p : Z) :
  p ≠ Hash m key → p ∈ keys (Remove m key) ↔ p ∈ keys m.
Proof.
  intros Hp. unfold Remove. cbn [keys]. rewrite elem_of_Ints.
  destruct (keys m !! SearchInts (keys m) (Hash m key)) as [k|] eqn:Hi;
    [|done].
  case_bool_decide as Hk; [|done]. subst k.
  by apply (remove_at_elem _ _ (Hash m key)).
Qed.

Lemma Add_keys_other (m : Consistent) (key : string) (p : Z) :
  p ≠ Hash m key → p ∈ keys (Add m key).1 ↔ p ∈ keys m.
Proof.
  intros Hp. unfold Add. cbn [fst keys].
  destruct (hashMap m !! Hash m key); [done|].
  rewrite elem_of_Ints, elem_of_app, list_elem_of_singleton. tauto.
Qed.

(** C10: for every ring, key and position [p] other than [Hash key],
    neither [Add key] nor [Remove key] changes the owner mapped to [p] or
    whether [p] is among the positions. *)
Theorem Add_Remove_frame (m : Consistent) (key : string) (p : Z) :
  p ≠ Hash m key →
  (hashMap (Add m key).1 !! p = hashMap m !! p ∧
   (p ∈ keys (Add m key).1 ↔ p ∈ keys m)) ∧
  (hashMap (Remove m key) !! p = hashMap m !! p ∧
   (p ∈ keys (Remove m key) ↔ p ∈ keys m)).
Proof.
  intros Hp. split; split.
  - cbn [Add fst hashMap]. by rewrite lookup_insert_ne.
  - by apply Add_keys_other.
  - cbn [Remove hashMap]. by rewrite lookup_delete_ne.
  - by apply Remove_keys_other.
Qed.

Lemma Add_Remove_frame_witness :
  66 ≠ Hash (ring_of ["B"; "D"]) "D" ∧
  (hashMap (Add (ring_of ["B"; "D"]) "D").1 !! 66
   = hashMap (ring_of ["B"; "D"]) !! 66 ∧
   (66 ∈ keys (Add (ring_of ["B"; "D"]) "D").1
    ↔ 66 ∈ keys (ring_of ["B"; "D"]))) ∧
  (hashMap (Remove (ring_of ["B"; "D"]) "D") !! 66
   = hashMap (ring_of ["B"; "D"]) !! 66 ∧
   (66 ∈ keys (Remove (ring_of ["B"; "D"]) "D")
    ↔ 66 ∈ keys (ring_of ["B"; "D"]))).
Proof.
  split; [by vm_compute|].
  apply (Add_Remove_frame (ring_of ["B"; "D"]) "D" 66). by vm_compute.
Defined.

(** * Further properties of the package *)

(** ** Membership changes *)

Lemma sorted_same_elements (l1 l2 : list Z) :
  StronglySorted Z.lt l1 → StronglySorted Z.lt l2 →
  (∀ x, x ∈ l1 ↔ x ∈ l2) → l1 = l2.
Proof.
  intros H1 H2 Hel. apply (StronglySorted_unique Z.le).
  - by apply StronglySorted_lt_le.
  - by apply StronglySorted_lt_le.
  - apply NoDup_Permutation; auto using StronglySorted_lt_NoDup.
Qed.

Lemma Consistent_eq (m1 m2 : Consistent) :
  hash m1 = hash m2 → keys m1 = keys m2 → hashMap m1 = hashMap m2 → m1 = m2.
Proof. destruct m1, m2. simpl. by intros -> -> ->. Qed.

(** On the rings the package builds the owners determine the positions. *)
Lemma reachable_eq (m1 m2 : Consistent) :
  reachable m1 → reachable m2 →
  hash m1 = hash m2 → hashMap m1 = hashMap m2 → m1 = m2.
Proof.
  intros [Hs1 Hd1 _]%reachable_inv [Hs2 Hd2 _]%reachable_inv Hhash Hmap.
  apply Consistent_eq; [done| |done].
  apply sorted_same_elements; [done..|].
  intros p. by rewrite Hd1, Hd2, Hmap.
Qed.

Lemma Has_false (m : Consistent) (key : string) :
  Has m key = false ↔ hashMap m !! Hash m key = None.
Proof. unfold Has. by destruct (hashMap m !! Hash m key). Qed.

(** X1: [Remove] of a key whose position is free changes nothing: the
    ring it leaves is the ring it found. *)
Theorem Remove_absent_is_noop (m : Consistent) (key : string) :
  reachable m → Has m key = false → Remove m key = m.
Proof.
  intros Hm Hfree%Has_false.
  apply reachable_eq; [by constructor|done|done|].
  simpl. by apply delete_id.
Qed.

Lemma Remove_absent_is_noop_witness :
  reachable (ring_of ["B"; "D"]) ∧ Has (ring_of ["B"; "D"]) "C" = false ∧
  Remove (ring_of ["B"; "D"]) "C" = ring_of ["B"; "D"].
Proof.
  split; [apply ring_of_reachable|]. split; [reflexivity|].
  apply Remove_absent_is_noop; [apply ring_of_reachable|reflexivity].
Defined.

(** X2: [Add] of a key at a free position followed by [Remove] of the
    same key gives back the ring as it was, positions and owners alike. *)
Theorem Add_then_Remove_restores (m : Consistent) (key : string) :
  reachable m → Has m key = false → Remove (Add m key).1 key = m.
Proof.
  intros Hm Hfree%Has_false.
  apply reachable_eq; [by do 2 constructor|done|done|].
  change (delete (Hash m key) (<[Hash m key := key]> (hashMap m)) = hashMap m).
  rewrite delete_insert_eq. by apply delete_id.
Qed.

Lemma Add_then_Remove_restores_witness :
  reachable (ring_of ["B"; "D"]) ∧ Has (ring_of ["B"; "D"]) "C" = false ∧
  Remove (Add (ring_of ["B"; "D"]) "C").1 "C" = ring_of ["B"; "D"].
Proof.
  split; [apply ring_of_reachable|]. split; [reflexivity|].
  apply Add_then_Remove_restores; [apply ring_of_reachable|reflexivity].
Defined.

(** X3: [Remove key] frees the position of [key] whoever holds it: a
    member stored there under another, colliding key is gone as well, and
    the position leaves the position slice. *)
Theorem Remove_evicts_position_holder (m : Consistent) (key other : string) :
  reachable m → hashMap m !! Hash m key = Some other →
  Has (Remove m key) other = false ∧
  (Hash m key ∉ keys (Remove m key)) ∧
  hashMap (Remove m key) !! Hash m key = None.
Proof.
  intros Hm Hlk.
  pose proof (reachable_inv m Hm) as [_ _ Howner].
  pose proof (reachable_inv _ (reach_Remove m key Hm)) as [_ Hdom _].
  assert (Hnone : hashMap (Remove m key) !! Hash m key = None)
    by apply lookup_delete_eq.
  split; [|split; [|done]].
  - apply Has_false. rewrite Hash_Remove, (Howner _ _ Hlk). done.
  - rewrite Hdom, Hnone. by intros [? ?].
Qed.

Lemma Remove_evicts_position_holder_witness :
  reachable (ring_of ["B"; "C1"]) ∧
  hashMap (ring_of ["B"; "C1"]) !! Hash (ring_of ["B"; "C1"]) "C2"
  = Some "C1" ∧
  Has (Remove (ring_of ["B"; "C1"]) "C2") "C1" = false ∧
  (Hash (ring_of ["B"; "C1"]) "C2"
   ∉ keys (Remove (ring_of ["B"; "C1"]) "C2")) ∧
  hashMap (Remove (ring_of ["B"; "C1"]) "C2")
    !! Hash (ring_of ["B"; "C1"]) "C2" = None.
Proof.
  split; [apply ring_of_reachable|]. split; [reflexivity|].
  apply Remove_evicts_position_holder;
    [apply ring_of_reachable|reflexivity].
Defined.

(** X4: [IsEmpty] is true exactly when [Has] is false of every key. *)
Theorem IsEmpty_iff_no_member (m : Consistent) :
  reachable m → (IsEmpty m = true ↔ ∀ key, Has m key = false).
Proof.
  intros Hm. pose proof (reachable_inv m Hm) as [_ Hdom Howner].
  rewrite IsEmpty_true. split.
  - intros Hnil key. apply Has_false.
    destruct (hashMap m !! Hash m key) as [member|] eqn:Hlk; [|done].
    assert (Hash m key ∈ keys m) as Hin by (apply Hdom; by eexists).
    rewrite Hnil in Hin. by apply elem_of_nil in Hin.
  - intros Hnone. destruct (keys m) as [|p ks] eqn:Hks; [done|].
    destruct (proj1 (Hdom p) ltac:(left)) as [member Hlk].
    specialize (Hnone member). apply Has_false in Hnone.
    rewrite (Howner _ _ Hlk) in Hnone. congruence.
Qed.

Lemma IsEmpty_iff_no_member_witness :
  reachable (Remove (ring_of ["B"]) "B") ∧
  (IsEmpty (Remove (ring_of ["B"]) "B") = true
   ↔ ∀ key, Has (Remove (ring_of ["B"]) "B") key = false).
Proof.
  assert (reachable (Remove (ring_of ["B"]) "B")) as Hm
    by (constructor; apply ring_of_reachable).
  split; [exact Hm|]. apply IsEmpty_iff_no_member. exact Hm.
Defined.

(** X5: on every ring the package builds, an owner is stored at the hash
    of its own key, that position is among the positions and within
    [uint32], and [Has] is true of the owner. *)
Theorem owners_sit_at_their_hash (m : Consistent) (p : Z) (member : string) :
  reachable m → hashMap m !! p = Some member →
  Hash m member = p ∧ p ∈ keys m ∧ 0 ≤ p < 2 ^ 32 ∧ Has m member = true.
Proof.
  intros Hm Hlk. pose proof (reachable_inv m Hm) as [_ Hdom Howner].
  assert (p ∈ keys m) as Hin by (apply Hdom; by eexists).
  split; [by apply Howner|]. split; [done|].
  split; [by apply (reachable_keys_uint32 m)|].
  apply Has_true. rewrite (Howner _ _ Hlk). by eexists.
Qed.

Lemma owners_sit_at_their_hash_witness :
  reachable (ring_of ["B"; "D"]) ∧
  hashMap (ring_of ["B"; "D"]) !! 68 = Some "D" ∧
  Hash (ring_of ["B"; "D"]) "D" = 68 ∧ 68 ∈ keys (ring_of ["B"; "D"]) ∧
  0 ≤ 68 < 2 ^ 32 ∧ Has (ring_of ["B"; "D"]) "D" = true.
Proof.
  split; [apply ring_of_reachable|]. split; [reflexivity|].
  apply owners_sit_at_their_hash; [apply ring_of_reachable|reflexivity].
Defined.

(** ** Successor and predecessor are unique *)

Lemma successor_unique (ks : list Z) (h p q : Z) :
  successor ks h p → successor ks h q → p = q.
Proof.
  intros [Hp Hp'] [Hq Hq']. rewrite !Forall_forall in Hp', Hq'.
  destruct Hp' as [[? Hpmin]|[Hpmax Hpmin]], Hq' as [[? Hqmin]|[Hqmax Hqmin]].
  - pose proof (Hpmin q Hq). pose proof (Hqmin p Hp). lia.
  - pose proof (Hqmax p Hp). lia.
  - pose proof (Hpmax q Hq). lia.
  - pose proof (Hpmin q Hq). pose proof (Hqmin p Hp). lia.
Qed.

Lemma predecessor_unique (ks : list Z) (h p q : Z) :
  predecessor ks h p → predecessor ks h q → p = q.
Proof.
  intros [Hp Hp'] [Hq Hq']. rewrite !Forall_forall in Hp', Hq'.
  destruct Hp' as [[? Hpmax]|[Hpmin Hpmax]], Hq' as [[? Hqmax]|[Hqmin Hqmax]].
  - pose proof (Hpmax q Hq). pose proof (Hqmax p Hp). lia.
  - pose proof (Hqmin p Hp). lia.
  - pose proof (Hpmin q Hq). lia.
  - pose proof (Hpmax q Hq). pose proof (Hqmax p Hp). lia.
Qed.

Lemma successor_subset (ks ks' : list Z) (h p : Z) :
  (∀ k, k ∈ ks → k ∈ ks') → p ∈ ks → successor ks' h p → successor ks h p.
Proof.
  intros Hsub Hp [_ Hcases]. split; [done|].
  rewrite !Forall_forall in Hcases. rewrite !Forall_forall.
  destruct Hcases as [[? Hmin]|[Hmax Hmin]]; [left|right]; split; auto.
Qed.

Lemma next_eq (m : Consistent) (h p : Z) :
  StronglySorted Z.lt (keys m) → successor (keys m) h p → next m h = Ok p.
Proof.
  intros Hsorted Hsucc.
  assert (keys m ≠ []) as Hne.
  { intros Hnil. destruct Hsucc as [Hin _]. rewrite Hnil in Hin.
    by apply elem_of_nil in Hin. }
  destruct (next_successor m h Hsorted Hne) as (q & Hq & Hsucc').
  by rewrite (successor_unique _ _ _ _ Hsucc Hsucc').
Qed.

Lemma prev_eq (m : Consistent) (h p : Z) :
  predecessor (keys m) h p → prev m h = Ok p.
Proof.
  intros Hpred.
  assert (keys m ≠ []) as Hne.
  { intros Hnil. destruct Hpred as [Hin _]. rewrite Hnil in Hin.
    by apply elem_of_nil in Hin. }
  destruct (prev_predecessor m h Hne) as (q & Hq & Hpred').
  by rewrite (predecessor_unique _ _ _ _ Hpred Hpred').
Qed.

(** Which keys [Get] gives to the member at position [p]. *)
Lemma Get_Ok_iff (m : Consistent) (key member : string) (p : Z) :
  reachable m → hashMap m !! p = Some member →
  Get m key = Ok member ↔ successor (keys m) (Hash m key) p.
Proof.
  intros Hm Hlk. pose proof (reachable_inv m Hm) as [Hsorted Hdom Howner].
  assert (keys m ≠ []) as Hne.
  { intros Hnil. assert (p ∈ keys m) as Hin by (apply Hdom; by eexists).
    rewrite Hnil in Hin. by apply elem_of_nil in Hin. }
  destruct (Next_owner_of_successor m key Hm Hne)
    as (q & member' & _ & Hsucc & Hlk' & HNext).
  unfold Get. rewrite HNext. split.
  - intros [= ->]. by rewrite <-(Howner _ _ Hlk), (Howner _ _ Hlk').
  - intros Hsucc'. rewrite (successor_unique _ _ _ _ Hsucc Hsucc') in Hlk'.
    congruence.
Qed.

Lemma Add_keys_elem (m : Consistent) (key : string) (p : Z) :
  reachable m → p ∈ keys (Add m key).1 ↔ p ∈ keys m ∨ p = Hash m key.
Proof.
  intros Hm. pose proof (reachable_inv m Hm) as [_ Hdom _].
  pose proof (reachable_inv _ (reach_Add m key Hm)) as [_ Hdom' _].
  rewrite Hdom', Hdom. simpl. rewrite lookup_insert_is_Some.
  split.
  - intros [<- |[_ Hp]]; [by right|by left].
  - intros [Hp| ->]; [|by left].
    destruct (decide (Hash m key = p)); [by left|by right].
Qed.

Lemma Remove_keys_elem (m : Consistent) (key : string) (p : Z) :
  reachable m → p ∈ keys (Remove m key) ↔ p ∈ keys m ∧ p ≠ Hash m key.
Proof.
  intros Hm. pose proof (reachable_inv m Hm) as [_ Hdom _].
  pose proof (reachable_inv _ (reach_Remove m key Hm)) as [_ Hdom' _].
  rewrite Hdom', Hdom. simpl. rewrite lookup_delete_is_Some.
  split; intros [? ?]; split; auto.
Qed.

(** ** Lookups *)

Lemma Remove_absent_noop_keys (m : Consistent) (key : string) :
  reachable m → keys m = [] → Remove m key = m.
Proof.
  intros Hm Hnil. pose proof (reachable_inv m Hm) as [_ Hdom _].
  apply reachable_eq; [by constructor|done|done|].
  simpl. apply delete_id.
  destruct (hashMap m !! Hash m key) eqn:Hlk; [|done].
  assert (Hash m key ∈ keys m) as Hin by (apply Hdom; by eexists).
  rewrite Hnil in Hin. by apply elem_of_nil in Hin.
Qed.

(** X6: on a ring with one member every key, whatever its hash, is given
    that member by [Get] and by [Next]. *)
Theorem Get_single_member (m : Consistent) (P : Z) :
  reachable m → keys m = [P] →
  ∃ member, hashMap m !! P = Some member ∧
            ∀ key, Get m key = Ok member ∧ Next m key = Ok member.
Proof.
  intros Hm Hks. pose proof (reachable_inv m Hm) as [_ Hdom _].
  destruct (proj1 (Hdom P)) as [member Hlk]; [rewrite Hks; left|].
  exists member. split; [done|]. intros key.
  assert (Get m key = Ok member) as HGet; [|by split].
  apply (Get_Ok_iff m key member P Hm Hlk). rewrite Hks.
  split; [left|].
  destruct (decide (Hash m key < P)); [left|right].
  - split; [done|]. apply Forall_singleton. lia.
  - split; apply Forall_singleton; lia.
Qed.

Lemma Get_single_member_witness :
  reachable (ring_of ["B"]) ∧ keys (ring_of ["B"]) = [66] ∧
  ∃ member, hashMap (ring_of ["B"]) !! 66 = Some member ∧
            ∀ key, Get (ring_of ["B"]) key = Ok member ∧
                   Next (ring_of ["B"]) key = Ok member.
Proof.
  split; [apply ring_of_reachable|]. split; [reflexivity|].
  apply Get_single_member; [apply ring_of_reachable|reflexivity].
Defined.

Lemma Range_Ok (m : Consistent) (host : string) :
  reachable m → keys m ≠ [] →
  ∃ P, predecessor (keys m) (Hash m host - 1) P ∧
       Range m host = Ok (P + 1, Hash m host).
Proof.
  intros Hm Hne.
  pose proof (reachable_hash_uint32 m Hm (String.list_byte_of_string host))
    as Hto. fold (Hash m host) in Hto. unfold is_uint32 in Hto.
  destruct (prev_predecessor m (Hash m host - 1) Hne) as (P & HP & Hpred).
  pose proof (reachable_keys_uint32 m P Hm (proj1 Hpred)) as Hrange.
  unfold is_uint32 in Hrange.
  exists P. split; [done|]. unfold Range.
  rewrite (proj2 (IsEmpty_false m) Hne). unfold int_sub, int_add.
  rewrite (int_wrap_id (Hash m host - 1)) by lia. rewrite HP. simpl.
  by rewrite int_wrap_id by lia.
Qed.

(** The hashes whose successor is the occupied position [to], in terms of
    the predecessor [P] of [to - 1]. *)
Lemma successor_iff_between (ks : list Z) (to P h : Z) :
  to ∈ ks → predecessor ks (to - 1) P →
  successor ks h to ↔
  (P + 1 ≤ to ∧ P ≤ h < to) ∨ (to < P + 1 ∧ (P ≤ h ∨ h < to)).
Proof.
  intros Hto [HP Hpred]. unfold successor.
  rewrite !Forall_forall in Hpred. rewrite !Forall_forall.
  destruct Hpred as [[HPto HPmax]|[Hmin Hmax]].
  - split.
    + intros [_ [[Hh Hsucc]|[Hall Hleast]]].
      * left. split; [lia|]. split; [|done].
        destruct (decide (P ≤ h)) as [|Hn]; [done|].
        pose proof (Hsucc P HP ltac:(lia)). lia.
      * pose proof (Hleast P HP). lia.
    + intros [[_ [HPh Hhto]]|[? _]]; [|lia].
      split; [done|]. left. split; [done|]. intros k Hk Hhk.
      destruct (decide (to ≤ k)) as [|Hn]; [done|].
      pose proof (HPmax k Hk ltac:(lia)). lia.
  - pose proof (Hmax to Hto). split.
    + intros [_ [[Hh _]|[Hall _]]].
      * right. split; [lia|]. by right.
      * right. split; [lia|]. left. by apply Hall.
    + intros [[? _]|[_ [HPh|Hhto]]]; [lia| |].
      * split; [done|]. right. split.
        -- intros k Hk. pose proof (Hmax k Hk). lia.
        -- intros k Hk. pose proof (Hmin k Hk). lia.
      * split; [done|]. left. split; [done|].
        intros k Hk _. pose proof (Hmin k Hk). lia.
Qed.

(** X7: for a member [host] of the ring, [Range host] is [(from, to)]
    with [to] the position of [host], and the keys that [Get] gives to
    [host] are those hashed from [from - 1] up to [to - 1], around the end
    of the ring when [to < from]: the interval of [Range] shifted down by
    one.  A key hashed at [to] itself is not among them unless [host] is
    alone. *)
Theorem Range_and_Get (m : Consistent) (host : string) :
  reachable m → hashMap m !! Hash m host = Some host →
  ∃ from to,
    Range m host = Ok (from, to) ∧ to = Hash m host ∧
    ∀ key,
      Get m key = Ok host ↔
      (from ≤ to ∧ from - 1 ≤ Hash m key < to) ∨
      (to < from ∧ (from - 1 ≤ Hash m key ∨ Hash m key < to)).
Proof.
  intros Hm Hlk. pose proof (reachable_inv m Hm) as [_ Hdom _].
  assert (Hash m host ∈ keys m) as Hin by (apply Hdom; by eexists).
  assert (keys m ≠ []) as Hne.
  { intros Hnil. rewrite Hnil in Hin. by apply elem_of_nil in Hin. }
  destruct (Range_Ok m host Hm Hne) as (P & Hpred & HRange).
  exists (P + 1), (Hash m host). split; [done|]. split; [done|].
  intros key. rewrite (Get_Ok_iff m key host _ Hm Hlk).
  rewrite (successor_iff_between _ _ P _ Hin Hpred).
  by replace (P + 1 - 1) with P by lia.
Qed.

Lemma Range_and_Get_witness :
  reachable (ring_of ["B"; "D"; "F"]) ∧
  hashMap (ring_of ["B"; "D"; "F"]) !! Hash (ring_of ["B"; "D"; "F"]) "D"
  = Some "D" ∧
  ∃ from to,
    Range (ring_of ["B"; "D"; "F"]) "D" = Ok (from, to) ∧
    to = Hash (ring_of ["B"; "D"; "F"]) "D" ∧
    ∀ key,
      Get (ring_of ["B"; "D"; "F"]) key = Ok "D" ↔
      (from ≤ to ∧ from - 1 ≤ Hash (ring_of ["B"; "D"; "F"]) key < to) ∨
      (to < from ∧ (from - 1 ≤ Hash (ring_of ["B"; "D"; "F"]) key ∨
                    Hash (ring_of ["B"; "D"; "F"]) key < to)).
Proof.
  split; [apply ring_of_reachable|]. split; [reflexivity|].
  apply Range_and_Get; [apply ring_of_reachable|reflexivity].
Defined.

Example Range_and_Get_example :
  Range (ring_of ["B"; "D"; "F"]) "D" = Ok (67, 68) ∧
  Get (ring_of ["B"; "D"; "F"]) "B" = Ok "D" ∧
  Get (ring_of ["B"; "D"; "F"]) "C" = Ok "D" ∧
  Get (ring_of ["B"; "D"; "F"]) "D" = Ok "F" ∧
  Range (ring_of ["B"; "D"; "F"]) "B" = Ok (71, 66) ∧
  Get (ring_of ["B"; "D"; "F"]) "F" = Ok "B" ∧
  Get (ring_of ["B"; "D"; "F"]) "A" = Ok "B".
Proof. repeat split; reflexivity. Qed.

(** X8: [Add key] moves a lookup to the new member or leaves it alone:
    for every key [q], [Get q] after the [Add] is [key] or what it was
    before. *)
Theorem Get_after_Add (m : Consistent) (key q : string) :
  reachable m →
  Get (Add m key).1 q = Get m q ∨ Get (Add m key).1 q = Ok key.
Proof.
  intros Hm.
  pose proof (reach_Add m key Hm) as Hm'.
  destruct (Next_owner_of_successor _ q Hm' (Add_nonempty m key Hm))
    as (p & member & _ & Hsucc & Hlk & HNext).
  rewrite Hash_Add in Hsucc. unfold Get at 1 3. rewrite HNext.
  simpl in Hlk. apply lookup_insert_Some in Hlk as [[_ <-]|[Hne Hlk]];
    [by right|left].
  symmetry. apply (Get_Ok_iff m q member p Hm Hlk).
  assert (p ∈ keys m) as Hp.
  { destruct (proj1 (Add_keys_elem m key p Hm) (proj1 Hsucc)); [done|].
    congruence. }
  apply (successor_subset _ (keys (Add m key).1)); [|done..].
  intros k Hk. apply Add_keys_elem; auto.
Qed.

Lemma Get_after_Add_witness :
  reachable (ring_of ["B"; "F"]) ∧
  (Get (Add (ring_of ["B"; "F"]) "D").1 "C" = Get (ring_of ["B"; "F"]) "C" ∨
   Get (Add (ring_of ["B"; "F"]) "D").1 "C" = Ok "D").
Proof.
  split; [apply ring_of_reachable|].
  apply Get_after_Add. apply ring_of_reachable.
Defined.

(** X9: [Remove key] leaves alone every lookup that did not go to the
    member at the position of [key]: if [Get q] was [member] and [member]
    is not the one stored there, [Get q] is [member] afterwards. *)
Theorem Get_after_Remove (m : Consistent) (key q member : string) :
  reachable m → Get m q = Ok member →
  hashMap m !! Hash m key ≠ Some member →
  Get (Remove m key) q = Ok member.
Proof.
  intros Hm HGet Hother.
  destruct (decide (keys m = [])) as [Hnil|Hne].
  { rewrite (Remove_absent_noop_keys m key Hm Hnil). done. }
  destruct (Next_owner_of_successor m q Hm Hne)
    as (p & member' & _ & Hsucc & Hlk & HNext).
  unfold Get in HGet. rewrite HNext in HGet. injection HGet as ->.
  assert (p ≠ Hash m key) as Hp by congruence.
  apply (Get_Ok_iff _ q member p); [by constructor| |].
  - simpl. by rewrite lookup_delete_ne.
  - rewrite Hash_Remove.
    apply (successor_subset _ (keys m)); [| |done].
    + intros k Hk. by apply (Remove_keys_elem m key k Hm).
    + apply Remove_keys_elem; [done|]. split; [apply Hsucc|done].
Qed.

Lemma Get_after_Remove_witness :
  reachable (ring_of ["B"; "D"; "F"]) ∧
  Get (ring_of ["B"; "D"; "F"]) "E" = Ok "F" ∧
  hashMap (ring_of ["B"; "D"; "F"]) !! Hash (ring_of ["B"; "D"; "F"]) "D"
  ≠ Some "F" ∧
  Get (Remove (ring_of ["B"; "D"; "F"]) "D") "E" = Ok "F".
Proof.
  split; [apply ring_of_reachable|]. split; [reflexivity|].
  split; [by vm_compute|].
  apply (Get_after_Remove (ring_of ["B"; "D"; "F"]) "D" "E" "F");
    [apply ring_of_reachable|reflexivity|by vm_compute].
Defined.

(** ** [next] and [prev] against each other *)

Lemma successor_of_predecessor (ks : list Z) (x p : Z) :
  x ∈ ks → predecessor ks (x - 1) p → successor ks p x.
Proof.
  intros Hx [Hp Hpred]. split; [done|].
  rewrite !Forall_forall in Hpred. rewrite !Forall_forall.
  destruct Hpred as [[Hpx Hmax]|[Hmin Hmax]]; [left|right].
  - split; [lia|]. intros k Hk Hpk.
    destruct (decide (x ≤ k)) as [|Hn]; [done|].
    pose proof (Hmax k Hk ltac:(lia)). lia.
  - split; [done|]. intros k Hk. pose proof (Hmin k Hk). lia.
Qed.

Lemma predecessor_of_successor (ks : list Z) (x q : Z) :
  x ∈ ks → successor ks x q → predecessor ks (q - 1) x.
Proof.
  intros Hx [Hq Hsucc]. split; [done|].
  rewrite !Forall_forall in Hsucc. rewrite !Forall_forall.
  destruct Hsucc as [[Hxq Hmin]|[Hmax Hmin]]; [left|right].
  - split; [lia|]. intros k Hk Hkq.
    destruct (decide (k ≤ x)) as [|Hn]; [done|].
    pose proof (Hmin k Hk ltac:(lia)). lia.
  - split; [|done]. intros k Hk. pose proof (Hmin k Hk). lia.
Qed.

(** X10: from an occupied position [x], one step of [next] and then
    [prev] of the position before it lead back to [x], and so do [prev]
    of the position before [x] and then one step of [next]. *)
Theorem next_prev_round_trip (m : Consistent) (x : Z) :
  reachable m → x ∈ keys m →
  (∃ q, next m x = Ok q ∧ prev m (q - 1) = Ok x) ∧
  (∃ p, prev m (x - 1) = Ok p ∧ next m p = Ok x).
Proof.
  intros Hm Hx. pose proof (reachable_inv m Hm) as [Hsorted _ _].
  assert (keys m ≠ []) as Hne.
  { intros Hnil. rewrite Hnil in Hx. by apply elem_of_nil in Hx. }
  split.
  - destruct (next_successor m x Hsorted Hne) as (q & Hq & Hsucc).
    exists q. split; [done|].
    by apply prev_eq, predecessor_of_successor.
  - destruct (prev_predecessor m (x - 1) Hne) as (p & Hp & Hpred).
    exists p. split; [done|].
    by apply next_eq, successor_of_predecessor.
Qed.

Lemma next_prev_round_trip_witness :
  reachable (ring_of ["B"; "D"; "F"]) ∧ 70 ∈ keys (ring_of ["B"; "D"; "F"]) ∧
  (∃ q, next (ring_of ["B"; "D"; "F"]) 70 = Ok q ∧
        prev (ring_of ["B"; "D"; "F"]) (q - 1) = Ok 70) ∧
  (∃ p, prev (ring_of ["B"; "D"; "F"]) (70 - 1) = Ok p ∧
        next (ring_of ["B"; "D"; "F"]) p = Ok 70).
Proof.
  assert (70 ∈ keys (ring_of ["B"; "D"; "F"])) as Hin
    by (by apply (bool_decide_unpack _); vm_compute).
  split; [apply ring_of_reachable|]. split; [exact Hin|].
  apply next_prev_round_trip; [apply ring_of_reachable|exact Hin].
Defined.

(** X11: the two revisions of [prev] agree on every position that has an
    occupied position at or below it; below all occupied positions the
    first revision answers the smallest one and the second the largest. *)
Theorem prev_of_both_revisions (m : Consistent) (h : Z) :
  keys m ≠ [] →
  (Exists (λ k, k ≤ h) (keys m) → Rev1.prev m h = prev m h) ∧
  (Forall (λ k, h < k) (keys m) →
   ∃ lo hi, Rev1.prev m h = Ok lo ∧ prev m h = Ok hi ∧
            lo ∈ keys m ∧ hi ∈ keys m ∧
            Forall (λ k, lo ≤ k ≤ hi) (keys m)).
Proof.
  intros Hne.
  destruct (prev_predecessor m h Hne) as (hi & Hhi & Hhiin & Hhi').
  destruct (Rev1_prev_predecessor m h Hne) as (lo & Hlo & Hloin & Hlo').
  rewrite Hhi, Hlo. rewrite !Forall_forall in Hhi', Hlo'. split.
  - rewrite Exists_exists. intros (k & Hk & Hkh). f_equal.
    destruct Hhi' as [[? Hhimax]|[Hall _]];
      [|pose proof (Hall k Hk); lia].
    destruct Hlo' as [[? Hlomax]|[Hall _]];
      [|pose proof (Hall k Hk); lia].
    pose proof (Hhimax lo Hloin). pose proof (Hlomax hi Hhiin). lia.
  - rewrite Forall_forall. intros Hall. exists lo, hi.
    do 4 (split; [done|]). apply Forall_forall. intros k Hk.
    destruct Hhi' as [[? _]|[_ Hmax]]; [pose proof (Hall hi Hhiin); lia|].
    destruct Hlo' as [[? _]|[_ Hmin]]; [pose proof (Hall lo Hloin); lia|].
    pose proof (Hmax k Hk). pose proof (Hmin k Hk). lia.
Qed.

Lemma prev_of_both_revisions_witness :
  keys (ring_of ["B"; "D"; "F"]) ≠ [] ∧
  Exists (λ k, k ≤ 69) (keys (ring_of ["B"; "D"; "F"])) ∧
  Rev1.prev (ring_of ["B"; "D"; "F"]) 69 = prev (ring_of ["B"; "D"; "F"]) 69 ∧
  Forall (λ k, 5 < k) (keys (ring_of ["B"; "D"; "F"])) ∧
  ∃ lo hi, Rev1.prev (ring_of ["B"; "D"; "F"]) 5 = Ok lo ∧
           prev (ring_of ["B"; "D"; "F"]) 5 = Ok hi ∧
           lo ∈ keys (ring_of ["B"; "D"; "F"]) ∧
           hi ∈ keys (ring_of ["B"; "D"; "F"]) ∧
           Forall (λ k, lo ≤ k ≤ hi) (keys (ring_of ["B"; "D"; "F"])).
Proof.
  assert (keys (ring_of ["B"; "D"; "F"]) ≠ []) as Hne by (by vm_compute).
  assert (Exists (λ k, k ≤ 69) (keys (ring_of ["B"; "D"; "F"]))) as Hex
    by (by apply (bool_decide_unpack _); vm_compute).
  assert (Forall (λ k, 5 < k) (keys (ring_of ["B"; "D"; "F"]))) as Hall
    by (by apply (bool_decide_unpack _); vm_compute).
  split; [exact Hne|]. split; [exact Hex|].
  split; [by apply (prev_of_both_revisions _ 69 Hne)|].
  split; [exact Hall|].
  by apply (prev_of_both_revisions _ 5 Hne).
Defined.

(** ** Walking around the ring *)

Lemma around_lookup (ks : list Z) (j : Z) :
  ks ≠ [] → ks !! Z.to_nat (j mod Z.of_nat (length ks)) = Some (around ks j).
Proof.
  intros Hne. apply list_lookup_lookup_total_lt.
  assert (0 < Z.of_nat (length ks)) by (destruct ks; [done|simpl; lia]).
  pose proof (Z.mod_pos_bound j (Z.of_nat (length ks))). lia.
Qed.

Lemma around_elem (ks : list Z) (j : Z) : ks ≠ [] → around ks j ∈ ks.
Proof. intros Hne. eapply list_elem_of_lookup_2. by apply around_lookup. Qed.

Lemma around_index (ks : list Z) (j : nat) (x : Z) :
  ks !! j = Some x → around ks (Z.of_nat j) = x.
Proof.
  intros Hj. pose proof (lookup_lt_Some _ _ _ Hj).
  unfold around. rewrite Z.mod_small, Nat2Z.id by lia.
  by apply list_lookup_total_correct.
Qed.

Lemma around_period (ks : list Z) (j : Z) :
  around ks (j + Z.of_nat (length ks)) = around ks j.
Proof.
  unfold around. f_equal. f_equal.
  rewrite <-(Z_mod_plus_full j 1 (Z.of_nat (length ks))). f_equal. lia.
Qed.

Lemma mod_inj (a b n : Z) :
  0 < n → a mod n = b mod n → - n < a - b < n → a = b.
Proof.
  intros Hn Hmod Hab.
  pose proof (Z.div_mod a n ltac:(lia)). pose proof (Z.div_mod b n ltac:(lia)).
  assert (a - b = n * (a / n - b / n)) as Hmul by lia.
  assert (a / n - b / n = 0) by nia. lia.
Qed.

Lemma around_inj (ks : list Z) (i j : Z) :
  NoDup ks → ks ≠ [] →
  - Z.of_nat (length ks) < i - j < Z.of_nat (length ks) →
  around ks i = around ks j → i = j.
Proof.
  intros Hnd Hne Hij Heq.
  assert (0 < Z.of_nat (length ks)) as Hlen
    by (destruct ks; [done|simpl; lia]).
  pose proof (around_lookup ks i Hne) as Hi.
  pose proof (around_lookup ks j Hne) as Hj. rewrite Heq in Hi.
  pose proof (proj1 (NoDup_alt ks) Hnd _ _ _ Hi Hj) as Hidx.
  pose proof (Z.mod_pos_bound i _ Hlen). pose proof (Z.mod_pos_bound j _ Hlen).
  apply (mod_inj i j (Z.of_nat (length ks))); [done| |done]. lia.
Qed.

(** One index further around a sorted circle is the successor. *)
Lemma around_successor (ks : list Z) (j : Z) :
  StronglySorted Z.lt ks → ks ≠ [] →
  successor ks (around ks j) (around ks (j + 1)).
Proof.
  intros Hsorted Hne.
  assert (0 < Z.of_nat (length ks)) as Hlen
    by (destruct ks; [done|simpl; lia]).
  pose proof (around_lookup ks j Hne) as Hx.
  pose proof (around_lookup ks (j + 1) Hne) as Hy.
  pose proof (Z.mod_pos_bound j _ Hlen) as Ha.
  set (x := around ks j) in *. set (y := around ks (j + 1)) in *.
  rewrite <-Z.add_mod_idemp_l in Hy by lia.
  set (a := j mod Z.of_nat (length ks)) in *.
  split; [by eapply list_elem_of_lookup_2|].
  destruct (decide (a + 1 < Z.of_nat (length ks))) as [Hin|Hlast].
  - rewrite Z.mod_small in Hy by lia. left.
    pose proof (StronglySorted_lookup Z.lt ks (Z.to_nat a) (Z.to_nat (a + 1))
                  x y Hsorted ltac:(lia) Hx Hy) as Hxy.
    split; [done|]. apply Forall_forall. intros k Hk Hxk.
    apply list_elem_of_lookup_1 in Hk as [i Hi].
    destruct (decide (i = Z.to_nat (a + 1))) as [->|Hne']; [simplify_eq; lia|].
    destruct (decide (i < Z.to_nat (a + 1))%nat) as [Hlt|Hge].
    + destruct (decide (i = Z.to_nat a)) as [->|]; [simplify_eq; lia|].
      pose proof (StronglySorted_lookup Z.lt ks i (Z.to_nat a) k x Hsorted
                    ltac:(lia) Hi Hx). lia.
    + pose proof (StronglySorted_lookup Z.lt ks (Z.to_nat (a + 1)) i y k
                    Hsorted ltac:(lia) Hy Hi). lia.
  - replace (a + 1) with (Z.of_nat (length ks)) in Hy by lia.
    rewrite Z.mod_same in Hy by lia. right.
    split; apply Forall_forall; intros k Hk;
      apply list_elem_of_lookup_1 in Hk as [i Hi];
      pose proof (lookup_lt_Some _ _ _ Hi).
    + destruct (decide (i = Z.to_nat a)) as [->|]; [simplify_eq; lia|].
      pose proof (StronglySorted_lookup Z.lt ks i (Z.to_nat a) k x Hsorted
                    ltac:(lia) Hi Hx). lia.
    + destruct (decide (i = Z.to_nat 0)) as [->|]; [simplify_eq; lia|].
      pose proof (StronglySorted_lookup Z.lt ks (Z.to_nat 0) i y k Hsorted
                    ltac:(lia) Hy Hi). lia.
Qed.

Lemma around_predecessor (ks : list Z) (j : Z) :
  StronglySorted Z.lt ks → ks ≠ [] →
  predecessor ks (around ks j - 1) (around ks (j - 1)).
Proof.
  intros Hsorted Hne. apply predecessor_of_successor.
  - by apply around_elem.
  - pose proof (around_successor ks (j - 1) Hsorted Hne) as Hsucc.
    by replace (j - 1 + 1) with j in Hsucc by lia.
Qed.

Lemma owner_inj (m : Consistent) (x y : Z) :
  reachable m → x ∈ keys m → y ∈ keys m → owner m x = owner m y → x = y.
Proof.
  intros Hm Hx Hy Heq. pose proof (reachable_inv m Hm) as [_ _ Howner].
  destruct (reachable_nonempty_owner m x Hm Hx) as (a & Ha & Hoa).
  destruct (reachable_nonempty_owner m y Hm Hy) as (b & Hb & Hob).
  rewrite <-(Howner _ _ Ha), <-(Howner _ _ Hb). congruence.
Qed.

(** A loop that writes the owner of the current position at [i] and moves
    on to the next position of a walk [pos] fills the slice with the
    owners along the walk. *)
Lemma for_range_walk (m : Consistent)
    (body : Z → Z * list string → result (Z * list string))
    (pos : Z → Z) (count : Z) :
  count < 2 ^ 63 →
  (∀ i locations, 0 ≤ i < Z.of_nat (length locations) →
     body i (pos i, locations)
     = Ok (pos (i + 1), <[Z.to_nat i := owner m (pos i)]> locations)) →
  ∀ (n : nat) (i : Z) (locations : list string),
    0 ≤ i → i + Z.of_nat n = count → Z.of_nat (length locations) = count →
    ∃ locations',
      for_range n i body (pos i, locations) = Ok (pos count, locations') ∧
      length locations' = length locations ∧
      (∀ t, (t < Z.to_nat i)%nat → locations' !! t = locations !! t) ∧
      (∀ t, (Z.to_nat i ≤ t < Z.to_nat count)%nat →
            locations' !! t = Some (owner m (pos (Z.of_nat t)))).
Proof.
  intros Hcount Hbody. induction n as [|n IH]; intros i locations Hi Hn Hlen.
  { exists locations. replace i with count by lia.
    split; [done|]. split; [done|]. split; [done|]. intros t Ht. lia. }
  cbn [for_range]. rewrite Hbody by lia. cbn [rbind].
  unfold int_add. rewrite int_wrap_id by lia.
  destruct (IH (i + 1) (<[Z.to_nat i := owner m (pos i)]> locations))
    as (locations' & Hrun & Hlen' & Hbefore & Hafter);
    [lia|lia|by rewrite length_insert|].
  exists locations'. split; [done|].
  split; [by rewrite Hlen', length_insert|]. split.
  - intros t Ht. rewrite Hbefore by lia.
    apply list_lookup_insert_ne. lia.
  - intros t Ht. destruct (decide (t = Z.to_nat i)) as [->|Hne].
    + rewrite Hbefore by lia. rewrite Z2Nat.id by lia.
      apply list_lookup_insert_eq. lia.
    + apply Hafter. lia.
Qed.

(** What follows for a slice [l] that holds the owners along a walk around
    the ring, one index at a time, clockwise ([s = 1]) or counter-clockwise
    ([s = -1]). *)
Section walk.
Context (m : Consistent) (s j0 : Z) (l : list string).
Hypothesis Hm : reachable m.
Hypothesis Hne : keys m ≠ [].
Hypothesis Hs : s = 1 ∨ s = -1.
Hypothesis Hl : ∀ t, (t < length l)%nat →
  l !! t = Some (owner m (around (keys m) (j0 + s * Z.of_nat t))).

Lemma walk_entry (t : nat) (a : string) :
  l !! t = Some a →
  hashMap m !! around (keys m) (j0 + s * Z.of_nat t) = Some a.
Proof using Hm Hne Hl.
  intros Ht. pose proof (lookup_lt_Some _ _ _ Ht) as Hlt.
  rewrite (Hl t Hlt) in Ht. injection Ht as <-.
  destruct (reachable_nonempty_owner m _ Hm
              (around_elem (keys m) (j0 + s * Z.of_nat t) Hne))
    as (a & Ha & ->). done.
Qed.

Lemma walk_members : Forall (λ a, Has m a = true) l.
Proof using Hm Hne Hl.
  apply Forall_lookup. intros t a Ht. apply walk_entry in Ht.
  pose proof (reachable_inv m Hm) as [_ _ Howner].
  apply Has_true. rewrite (Howner _ _ Ht). by eexists.
Qed.

Lemma walk_NoDup : (length l ≤ length (keys m))%nat → NoDup l.
Proof using Hm Hne Hs Hl.
  intros Hlen. apply NoDup_alt. intros i j a Hi Hj.
  pose proof (lookup_lt_Some _ _ _ Hi). pose proof (lookup_lt_Some _ _ _ Hj).
  apply walk_entry in Hi, Hj.
  pose proof (reachable_inv m Hm) as [Hsorted _ Howner].
  assert (around (keys m) (j0 + s * Z.of_nat i)
          = around (keys m) (j0 + s * Z.of_nat j)) as Heq
    by (by rewrite <-(Howner _ _ Hi), <-(Howner _ _ Hj)).
  apply around_inj in Heq;
    [|by apply StronglySorted_lt_NoDup|done|destruct Hs; subst s; lia].
  destruct Hs; subst s; lia.
Qed.

Lemma walk_period (t : nat) :
  (t + length (keys m) < length l)%nat →
  l !! (t + length (keys m))%nat = l !! t.
Proof using Hs Hl.
  intros Ht. rewrite !Hl by lia. do 2 f_equal.
  destruct Hs; subst s.
  - rewrite <-(around_period _ (j0 + 1 * Z.of_nat t)). f_equal. lia.
  - rewrite <-(around_period _ (j0 + -1 * Z.of_nat (t + length (keys m)))).
    f_equal. lia.
Qed.

End walk.

(** ** [PrevN] *)

Lemma PrevN_body_around (m : Consistent) (j0 i : Z) (locations : list string) :
  reachable m → keys m ≠ [] → 0 ≤ i < Z.of_nat (length locations) →
  PrevN_body m i (around (keys m) (j0 + -1 * i), locations)
  = Ok (around (keys m) (j0 + -1 * (i + 1)),
        <[Z.to_nat i := owner m (around (keys m) (j0 + -1 * i))]> locations).
Proof.
  intros Hm Hne Hi. pose proof (reachable_inv m Hm) as [Hsorted _ _].
  unfold PrevN_body. cbn [fst snd]. rewrite slice_set_in by done.
  cbn [rbind].
  pose proof (reachable_keys_uint32 m _ Hm
                (around_elem (keys m) (j0 + -1 * i) Hne)) as Hrange.
  unfold is_uint32 in Hrange.
  unfold int_sub. rewrite int_wrap_id by lia.
  rewrite (prev_eq m _ (around (keys m) (j0 + -1 * (i + 1)))); [done|].
  replace (j0 + -1 * (i + 1)) with (j0 + -1 * i - 1) by lia.
  by apply around_predecessor.
Qed.

Lemma PrevN_walk (m : Consistent) (key : string) (count : Z) :
  reachable m → keys m ≠ [] → 0 ≤ count < 2 ^ 63 →
  ∃ j0 l,
    prev m (Hash m key) = Ok (around (keys m) j0) ∧
    PrevN m key count = Ok l ∧ Z.of_nat (length l) = count ∧
    ∀ t, (t < length l)%nat →
         l !! t = Some (owner m (around (keys m) (j0 + -1 * Z.of_nat t))).
Proof.
  intros Hm Hne Hcount.
  destruct (prev_predecessor m (Hash m key) Hne) as (p0 & Hp0 & Hin & _).
  apply list_elem_of_lookup_1 in Hin as [j Hj].
  apply around_index in Hj. exists (Z.of_nat j).
  destruct (for_range_walk m (PrevN_body m)
              (λ i, around (keys m) (Z.of_nat j + -1 * i)) count
              ltac:(lia)
              ltac:(intros; by apply PrevN_body_around)
              (Z.to_nat count) 0 (replicate (Z.to_nat count) ""))
    as (l & Hrun & Hlen & _ & Hl); [lia|lia|rewrite length_replicate; lia|].
  rewrite length_replicate in Hlen.
  cbn beta in Hrun. replace (Z.of_nat j + -1 * 0) with (Z.of_nat j) in Hrun
    by lia.
  exists l. split; [by rewrite Hj|]. split; [|split; [lia|]].
  - unfold PrevN. rewrite (proj2 (IsEmpty_false m) Hne).
    unfold make_strings. rewrite bool_decide_eq_false_2 by lia.
    cbn [rbind]. rewrite Hp0. cbn [rbind]. rewrite Z.sub_0_r.
    rewrite <-Hj, Hrun. done.
  - intros t Ht. apply Hl. lia.
Qed.





Example PrevN_cycle_example :
  PrevN (ring_of ["B"; "D"; "F"]) "E" 5 = Ok ["D"; "B"; "F"; "D"; "B"].
Proof. reflexivity. Qed.

(** ** [GetReplicas] of the first revision *)

Lemma Rev1_next_eq (m : Consistent) (h p : Z) :
  StronglySorted Z.lt (keys m) → successor (keys m) h p →
  Rev1.next m h = Ok p.
Proof. apply next_eq. Qed.

Lemma GetReplicas_body_around (m : Consistent) (j0 i : Z)
    (locations : list string) :
  reachable m → keys m ≠ [] → 0 ≤ i < Z.of_nat (length locations) →
  Rev1.GetReplicas_body m i (around (keys m) (j0 + 1 * i), locations)
  = Ok (around (keys m) (j0 + 1 * (i + 1)),
        <[Z.to_nat i := owner m (around (keys m) (j0 + 1 * i))]> locations).
Proof.
  intros Hm Hne Hi. pose proof (reachable_inv m Hm) as [Hsorted _ _].
  unfold Rev1.GetReplicas_body. cbn [fst snd].
  rewrite slice_set_in by done. cbn [rbind].
  rewrite (Rev1_next_eq m _ (around (keys m) (j0 + 1 * (i + 1))));
    [done|done|].
  replace (j0 + 1 * (i + 1)) with (j0 + 1 * i + 1) by lia.
  by apply around_successor.
Qed.

Lemma GetReplicas_walk (m : Consistent) (key : string) (numReplicas : Z) :
  reachable m → keys m ≠ [] → 0 ≤ numReplicas < 2 ^ 63 →
  ∃ j0 l,
    Rev1.prev m (Hash m key) = Ok (around (keys m) j0) ∧
    Rev1.GetReplicas m key numReplicas = Ok l ∧
    Z.of_nat (length l) = numReplicas ∧
    ∀ t, (t < length l)%nat →
         l !! t = Some (owner m (around (keys m) (j0 + 1 * Z.of_nat t))).
Proof.
  intros Hm Hne Hcount.
  destruct (Rev1_prev_predecessor m (Hash m key) Hne)
    as (p0 & Hp0 & Hin & _).
  apply list_elem_of_lookup_1 in Hin as [j Hj].
  apply around_index in Hj. exists (Z.of_nat j).
  destruct (for_range_walk m (Rev1.GetReplicas_body m)
              (λ i, around (keys m) (Z.of_nat j + 1 * i)) numReplicas
              ltac:(lia)
              ltac:(intros; by apply GetReplicas_body_around)
              (Z.to_nat numReplicas) 0 (replicate (Z.to_nat numReplicas) ""))
    as (l & Hrun & Hlen & _ & Hl); [lia|lia|rewrite length_replicate; lia|].
  rewrite length_replicate in Hlen.
  cbn beta in Hrun. replace (Z.of_nat j + 1 * 0) with (Z.of_nat j) in Hrun
    by lia.
  exists l. split; [by rewrite Hj|]. split; [|split; [lia|]].
  - unfold Rev1.GetReplicas. rewrite (proj2 (IsEmpty_false m) Hne).
    rewrite Hp0. cbn [rbind].
    unfold make_strings. rewrite bool_decide_eq_false_2 by lia.
    cbn [rbind]. rewrite Z.sub_0_r. rewrite <-Hj, Hrun. done.
  - intros t Ht. apply Hl. lia.
Qed.





Example GetReplicas_example :
  Rev1.GetReplicas (ring_of ["B"; "D"; "F"]) "E" 5
  = Ok ["D"; "F"; "B"; "D"; "F"] ∧
  Rev1.GetReplicas (New None) "E" 5 = Ok [].
Proof. split; reflexivity. Qed.

(** X16: a negative count on a ring with a member is a panic of [make]
    in [PrevN] and in [GetReplicas] alike; neither returns a slice. *)
Theorem negative_count_panics (m : Consistent) (key : string) (count : Z) :
  keys m ≠ [] → count < 0 →
  PrevN m key count = Panic MakeSliceLenOutOfRange ∧
  Rev1.GetReplicas m key count = Panic MakeSliceLenOutOfRange.
Proof.
  intros Hne Hcount. unfold PrevN, Rev1.GetReplicas.
  rewrite (proj2 (IsEmpty_false m) Hne).
  unfold make_strings. rewrite bool_decide_eq_true_2 by done.
  split; [done|].
  by destruct (Rev1_prev_predecessor m (Hash m key) Hne) as (p & -> & _).
Qed.

Lemma negative_count_panics_witness :
  keys (ring_of ["B"]) ≠ [] ∧ -1 < 0 ∧
  PrevN (ring_of ["B"]) "E" (-1) = Panic MakeSliceLenOutOfRange ∧
  Rev1.GetReplicas (ring_of ["B"]) "E" (-1) = Panic MakeSliceLenOutOfRange.
Proof.
  split; [by vm_compute|]. split; [lia|].
  apply negative_count_panics; [by vm_compute|lia].
Defined.

(** ** [Range] and [Get] of the first revision *)

Lemma predecessor_or_least_unique (ks : list Z) (h p q : Z) :
  predecessor_or_least ks h p → predecessor_or_least ks h q → p = q.
Proof.
  intros [Hp Hp'] [Hq Hq']. rewrite !Forall_forall in Hp', Hq'.
  destruct Hp' as [[? Hpmax]|[Hpall Hpmin]], Hq' as [[? Hqmax]|[Hqall Hqmin]].
  - pose proof (Hpmax q Hq). pose proof (Hqmax p Hp). lia.
  - pose proof (Hqall p Hp). lia.
  - pose proof (Hpall q Hq). lia.
  - pose proof (Hpmin q Hq). pose proof (Hqmin p Hp). lia.
Qed.

Lemma Rev1_Get_Ok_iff (m : Consistent) (key member : string) (p : Z) :
  reachable m → hashMap m !! p = Some member →
  Rev1.Get m key = Ok member ↔ predecessor_or_least (keys m) (Hash m key) p.
Proof.
  intros Hm Hlk. pose proof (reachable_inv m Hm) as [_ Hdom Howner].
  assert (keys m ≠ []) as Hne.
  { intros Hnil. assert (p ∈ keys m) as Hin by (apply Hdom; by eexists).
    rewrite Hnil in Hin. by apply elem_of_nil in Hin. }
  destruct (Rev1_prev_predecessor m (Hash m key) Hne) as (q & Hq & Hpred).
  destruct (reachable_nonempty_owner m q Hm (proj1 Hpred))
    as (member' & Hlk' & Hown).
  unfold Rev1.Get. rewrite (proj2 (IsEmpty_false m) Hne), Hq. cbn [rbind].
  rewrite Hown. split.
  - intros [= ->]. by rewrite <-(Howner _ _ Hlk), (Howner _ _ Hlk').
  - intros Hpred'.
    rewrite (predecessor_or_least_unique _ _ _ _ Hpred Hpred') in Hlk'.
    congruence.
Qed.

Lemma predecessor_or_least_iff_between (ks : list Z) (P S h : Z) :
  P ∈ ks → successor ks P S →
  predecessor_or_least ks h P ↔
  (P ≤ h ∧ (h ≤ S - 1 ∨ S - 1 < P)) ∨ (h < P ∧ Forall (λ k, P ≤ k) ks).
Proof.
  intros HP [HS Hsucc]. unfold predecessor_or_least.
  rewrite !Forall_forall in Hsucc. rewrite !Forall_forall. split.
  - intros [_ [[HPh Hmax]|[Hall Hmin]]].
    + left. split; [done|].
      destruct Hsucc as [[HPS _]|[_ Hleast]].
      * left. destruct (decide (h ≤ S - 1)) as [|Hn]; [done|].
        pose proof (Hmax S HS ltac:(lia)). lia.
      * right. pose proof (Hleast P HP). lia.
    + right. split; [|done]. by apply Hall.
  - intros [[HPh Hto]|[HhP Hmin]]; (split; [done|]).
    + left. split; [done|]. intros k Hk Hkh.
      destruct Hsucc as [[HPS Hnext]|[Hgreatest _]]; [|by apply Hgreatest].
      destruct (decide (k ≤ P)) as [|Hn]; [done|].
      pose proof (Hnext k Hk ltac:(lia)). lia.
    + right. split; [|done]. intros k Hk. pose proof (Hmin k Hk). lia.
Qed.

(** X17: in the first revision, for a member [host] of the ring,
    [Range host] is [(from, to)] with [from] the position of [host] and
    [to] the position before [next from]; [Get] gives [host] the keys
    hashed from [from] up to [to], or from [from] on when [to < from], and,
    when [host] holds the smallest position, also every key hashed below
    it. *)
Theorem Rev1_Range_and_Get (m : Consistent) (host : string) :
  reachable m → hashMap m !! Hash m host = Some host →
  ∃ from to,
    Rev1.Range m host = Ok (from, to) ∧ from = Hash m host ∧
    ∀ key,
      Rev1.Get m key = Ok host ↔
      (from ≤ Hash m key ∧ (Hash m key ≤ to ∨ to < from)) ∨
      (Hash m key < from ∧ Forall (λ k, from ≤ k) (keys m)).
Proof.
  intros Hm Hlk. pose proof (reachable_inv m Hm) as [Hsorted Hdom _].
  assert (Hash m host ∈ keys m) as Hin by (apply Hdom; by eexists).
  assert (keys m ≠ []) as Hne.
  { intros Hnil. rewrite Hnil in Hin. by apply elem_of_nil in Hin. }
  destruct (next_successor m (Hash m host) Hsorted Hne) as (S & HS & Hsucc).
  pose proof (reachable_keys_uint32 m S Hm (proj1 Hsucc)) as Hrange.
  unfold is_uint32 in Hrange.
  exists (Hash m host), (S - 1). split; [|split; [done|]].
  - unfold Rev1.Range. rewrite (proj2 (IsEmpty_false m) Hne).
    change (Rev1.next m (Hash m host)) with (next m (Hash m host)).
    rewrite HS. cbn [rbind]. unfold int_sub. by rewrite int_wrap_id by lia.
  - intros key. rewrite (Rev1_Get_Ok_iff m key host _ Hm Hlk).
    by apply predecessor_or_least_iff_between.
Qed.

Lemma Rev1_Range_and_Get_witness :
  reachable (ring_of ["B"; "D"; "F"]) ∧
  hashMap (ring_of ["B"; "D"; "F"]) !! Hash (ring_of ["B"; "D"; "F"]) "D"
  = Some "D" ∧
  ∃ from to,
    Rev1.Range (ring_of ["B"; "D"; "F"]) "D" = Ok (from, to) ∧
    from = Hash (ring_of ["B"; "D"; "F"]) "D" ∧
    ∀ key,
      Rev1.Get (ring_of ["B"; "D"; "F"]) key = Ok "D" ↔
      (from ≤ Hash (ring_of ["B"; "D"; "F"]) key ∧
       (Hash (ring_of ["B"; "D"; "F"]) key ≤ to ∨ to < from)) ∨
      (Hash (ring_of ["B"; "D"; "F"]) key < from ∧
       Forall (λ k, from ≤ k) (keys (ring_of ["B"; "D"; "F"]))).
Proof.
  split; [apply ring_of_reachable|]. split; [reflexivity|].
  apply Rev1_Range_and_Get; [apply ring_of_reachable|reflexivity].
Defined.

Example Rev1_Range_example :
  Rev1.Range (ring_of ["B"; "D"; "F"]) "D" = Ok (68, 69) ∧
  Rev1.Range (ring_of ["B"; "D"; "F"]) "F" = Ok (70, 65) ∧
  Rev1.Get (ring_of ["B"; "D"; "F"]) "E" = Ok "D" ∧
  Rev1.Get (ring_of ["B"; "D"; "F"]) "A" = Ok "B".
Proof. repeat split; reflexivity. Qed.

(** X18: on the empty ring the lookups of the first revision return
    their sentinels as well: [Get], [GetFromHash] and [Next] the empty
    string, [GetReplicas] the nil slice whatever the count, [Range] the
    pair [(0, 0)]; its [prev] and [next] on no position at all end in an
    index out of range. *)
Theorem Rev1_empty_ring_sentinels (m : Consistent) (key : string)
    (count h : Z) :
  IsEmpty m = true →
  Rev1.Get m key = Ok "" ∧ Rev1.GetFromHash m h = Ok "" ∧
  Rev1.Next m key = Ok "" ∧ Rev1.GetReplicas m key count = Ok [] ∧
  Rev1.Range m key = Ok (0, 0) ∧
  Rev1.prev m h = Panic IndexOutOfRange ∧
  Rev1.next m h = Panic IndexOutOfRange.
Proof.
  intros Hempty.
  unfold Rev1.Get, Rev1.GetFromHash, Rev1.Next, Rev1.GetReplicas, Rev1.Range.
  rewrite Hempty. do 5 (split; [reflexivity|]).
  apply IsEmpty_true in Hempty. unfold Rev1.prev, Rev1.next.
  rewrite Hempty. split; reflexivity.
Qed.

Lemma Rev1_empty_ring_sentinels_witness :
  IsEmpty (New None) = true ∧
  Rev1.Get (New None) "A" = Ok "" ∧ Rev1.GetFromHash (New None) 7 = Ok "" ∧
  Rev1.Next (New None) "A" = Ok "" ∧
  Rev1.GetReplicas (New None) "A" 3 = Ok [] ∧
  Rev1.Range (New None) "A" = Ok (0, 0) ∧
  Rev1.prev (New None) 7 = Panic IndexOutOfRange ∧
  Rev1.next (New None) 7 = Panic IndexOutOfRange.
Proof.
  split; [reflexivity|].
  apply (Rev1_empty_ring_sentinels (New None) "A" 3 7). reflexivity.
Defined.

(** X19: in the first revision a member looks itself up: right after
    [Add key], [Get key] and [GetFromHash] of the returned position are
    [key], whatever else is on the ring. *)
Theorem Rev1_Get_after_Add (m : Consistent) (key : string) :
  reachable m →
  Rev1.Get (Add m key).1 key = Ok key ∧
  Rev1.GetFromHash (Add m key).1 (Add m key).2 = Ok key.
Proof.
  intros Hm.
  assert (Rev1.Get (Add m key).1 key = Ok key) as HGet; [|by split].
  pose proof (reach_Add m key Hm) as Hm'.
  pose proof (reachable_inv _ Hm') as [_ Hdom _].
  assert (hashMap (Add m key).1 !! Hash m key = Some key) as Hlk
    by apply lookup_insert_eq.
  apply (Rev1_Get_Ok_iff _ key key (Hash m key) Hm' Hlk).
  rewrite Hash_Add. split; [apply Hdom; by eexists|].
  left. split; [lia|]. apply Forall_forall. auto.
Qed.

Lemma Rev1_Get_after_Add_witness :
  reachable (ring_of ["B"; "F"]) ∧
  Rev1.Get (Add (ring_of ["B"; "F"]) "D").1 "D" = Ok "D" ∧
  Rev1.GetFromHash (Add (ring_of ["B"; "F"]) "D").1
    (Add (ring_of ["B"; "F"]) "D").2 = Ok "D".
Proof.
  split; [apply ring_of_reachable|].
  apply Rev1_Get_after_Add. apply ring_of_reachable.
Defined.

Lemma predecessor_or_least_subset (ks ks' : list Z) (h p : Z) :
  (∀ k, k ∈ ks → k ∈ ks') → p ∈ ks →
  predecessor_or_least ks' h p → predecessor_or_least ks h p.
Proof.
  intros Hsub Hp [_ Hcases]. split; [done|].
  rewrite !Forall_forall in Hcases. rewrite !Forall_forall.
  destruct Hcases as [[? Hmax]|[Hall Hmin]]; [left|right]; split; auto.
Qed.

(** X20: in the first revision too [Add key] moves a lookup to the new
    member or leaves it alone: [Get q] after the [Add] is [key] or what
    it was before. *)
Theorem Rev1_Get_after_Add_other (m : Consistent) (key q : string) :
  reachable m →
  Rev1.Get (Add m key).1 q = Rev1.Get m q ∨
  Rev1.Get (Add m key).1 q = Ok key.
Proof.
  intros Hm. pose proof (reach_Add m key Hm) as Hm'.
  pose proof (Add_nonempty m key Hm) as Hne'.
  destruct (Rev1_prev_predecessor _ (Hash (Add m key).1 q) Hne')
    as (p & Hp & Hpred).
  destruct (reachable_nonempty_owner _ p Hm' (proj1 Hpred))
    as (member & Hlk & Hown).
  assert (Rev1.Get (Add m key).1 q = Ok member) as HGet.
  { unfold Rev1.Get. rewrite (proj2 (IsEmpty_false _) Hne'), Hp.
    cbn [rbind]. by rewrite Hown. }
  rewrite HGet. rewrite Hash_Add in Hpred.
  simpl in Hlk. apply lookup_insert_Some in Hlk as [[_ <-]|[Hne Hlk]];
    [by right|left].
  symmetry. apply (Rev1_Get_Ok_iff m q member p Hm Hlk).
  assert (p ∈ keys m) as Hpin.
  { destruct (proj1 (Add_keys_elem m key p Hm) (proj1 Hpred)); [done|].
    congruence. }
  apply (predecessor_or_least_subset _ (keys (Add m key).1)); [|done..].
  intros k Hk. apply Add_keys_elem; auto.
Qed.

Lemma Rev1_Get_after_Add_other_witness :
  reachable (ring_of ["B"; "F"]) ∧
  (Rev1.Get (Add (ring_of ["B"; "F"]) "D").1 "E"
   = Rev1.Get (ring_of ["B"; "F"]) "E" ∨
   Rev1.Get (Add (ring_of ["B"; "F"]) "D").1 "E" = Ok "D").
Proof.
  split; [apply ring_of_reachable|].
  apply Rev1_Get_after_Add_other. apply ring_of_reachable.
Defined.

(** ** The order of membership changes *)

(** X21: membership changes at different positions commute: two [Add]s,
    an [Add] and a [Remove], in either order leave the same ring; two
    [Remove]s commute whatever their positions. *)
Theorem changes_commute (m : Consistent) (k1 k2 : string) :
  reachable m →
  (Hash m k1 ≠ Hash m k2 →
   (Add (Add m k1).1 k2).1 = (Add (Add m k2).1 k1).1 ∧
   Remove (Add m k1).1 k2 = (Add (Remove m k2) k1).1) ∧
  Remove (Remove m k1) k2 = Remove (Remove m k2) k1.
Proof.
  intros Hm. split; [intros Hne; split|].
  - apply reachable_eq; [by do 2 constructor..|done|].
    change (<[Hash m k2 := k2]> (<[Hash m k1 := k1]> (hashMap m))
            = <[Hash m k1 := k1]> (<[Hash m k2 := k2]> (hashMap m))).
    by apply insert_insert_ne.
  - apply reachable_eq; [by do 2 constructor..|done|].
    change (delete (Hash m k2) (<[Hash m k1 := k1]> (hashMap m))
            = <[Hash m k1 := k1]> (delete (Hash m k2) (hashMap m))).
    by apply delete_insert_ne.
  - apply reachable_eq; [by do 2 constructor..|done|].
    change (delete (Hash m k2) (delete (Hash m k1) (hashMap m))
            = delete (Hash m k1) (delete (Hash m k2) (hashMap m))).
    apply delete_delete.
Qed.

Lemma changes_commute_witness :
  reachable (ring_of ["B"; "F"]) ∧
  Hash (ring_of ["B"; "F"]) "D" ≠ Hash (ring_of ["B"; "F"]) "B" ∧
  (Add (Add (ring_of ["B"; "F"]) "D").1 "B").1
  = (Add (Add (ring_of ["B"; "F"]) "B").1 "D").1 ∧
  Remove (Add (ring_of ["B"; "F"]) "D").1 "B"
  = (Add (Remove (ring_of ["B"; "F"]) "B") "D").1 ∧
  Remove (Remove (ring_of ["B"; "F"]) "D") "B"
  = Remove (Remove (ring_of ["B"; "F"]) "B") "D".
Proof.
  assert (Hash (ring_of ["B"; "F"]) "D" ≠ Hash (ring_of ["B"; "F"]) "B")
    as Hne by (by vm_compute).
  destruct (changes_commute (ring_of ["B"; "F"]) "D" "B"
              (ring_of_reachable _)) as [Hdiff Hrem].
  destruct (Hdiff Hne) as [Hadd Haddrem].
  split; [apply ring_of_reachable|]. split; [exact Hne|].
  split; [exact Hadd|]. split; [exact Haddrem|exact Hrem].
Defined.
